(** * hexmachina: the frame field and its singular graph

    A shallow embedding of [framefield.py]: the field initializer
    ([init_framefield]), the one-ring builder ([compute_onerings]) and the
    matcher and singularity classifier ([singular_graph]).

    Conventions of the embedding.
    - Python exceptions are values of [exn]; a computation that may raise
      lives in [result].
    - Sequences are lists indexed with Python's rules ([py_get]): a negative
      index counts from the end, anything out of range raises [IndexError].
    - Dictionaries are [gmap]s; a dictionary used only for membership tests
      is the [gset] of its keys.
    - The vectors of the frames the matcher reads are float64 arrays: three
      binary64 numbers, Rocq's primitive [float]s, and the scores are
      computed on them with binary64 operations, each one rounded.
    - The symmetry elements, and the accumulator the classifier multiplies
      from them, have the entries 0, 1 and -1, which binary64 holds and
      multiplies without rounding: they are integer matrices ([mat]).
    - Curvatures are exact rationals. *)

From Stdlib Require Import Floats.
From Stdlib Require Import ZArith QArith Qabs Qminmax Qreals Lia Lqa Permutation Reals.
From stdpp Require Import base option list gmap.

Local Open Scope Z_scope.

(** ** Exceptions *)

Inductive exn : Set :=
| IndexError
| KeyError
| ValueError
| LinAlgError
| OutOfFuel.  (* not a Python exception: a [while] loop cut off by the model *)

Inductive result (A : Type) : Type :=
| Ok (a : A)
| Raise (e : exn).
Arguments Ok {A} a.
Arguments Raise {A} e.

#[global] Instance result_ret : MRet result := fun A a => Ok a.
#[global] Instance result_bind : MBind result := fun A B f m =>
  match m with
  | Ok a => f a
  | Raise e => Raise e
  end.

(** ** Python containers *)

(** [l[i]] on a sequence. *)
Definition py_get {A : Type} (l : list A) (i : Z) : result A :=
  let n := Z.of_nat (length l) in
  let j := if i <? 0 then i + n else i in
  if (0 <=? j) && (j <? n)
  then match l !! Z.to_nat j with
       | Some x => Ok x
       | None => Raise IndexError
       end
  else Raise IndexError.

(** [d[k]] on a dictionary. *)
Definition dict_get {K : Type} `{Countable K} {A : Type} (d : gmap K A) (k : K) : result A :=
  match d !! k with
  | Some x => Ok x
  | None => Raise KeyError
  end.

(** [x in l] on a sequence of integers. *)
Definition py_in (x : Z) (l : list Z) : bool := existsb (Z.eqb x) l.

(** [enumerate(l)], counting from [i]. *)
Fixpoint enumerate_from {A : Type} (i : Z) (l : list A) : list (Z * A) :=
  match l with
  | [] => []
  | x :: l' => (i, x) :: enumerate_from (i + 1) l'
  end.

Definition enumerate {A : Type} (l : list A) : list (Z * A) := enumerate_from 0 l.

(** [for x in l: s = body(s, x)], stopping at the first exception. *)
Fixpoint for_each {A S : Type} (body : S → A → result S) (l : list A) (s : S) : result S :=
  match l with
  | [] => Ok s
  | x :: l' => s' ← body s x; for_each body l' s'
  end.

(** [range(n)]. *)
Definition py_range (n : nat) : list Z := seqZ 0 (Z.of_nat n).

(** ** Linear algebra on 3-vectors and 3x3 matrices *)

Record vec : Set := Vec { vx : Z; vy : Z; vz : Z }.

(** A matrix is given by its rows. *)
Record mat : Set := Mat { row0 : vec; row1 : vec; row2 : vec }.

#[global] Instance vec_eq_dec : EqDecision vec.
Proof. solve_decision. Defined.

#[global] Instance mat_eq_dec : EqDecision mat.
Proof. solve_decision. Defined.

Definition vadd (a b : vec) : vec := Vec (vx a + vx b) (vy a + vy b) (vz a + vz b).
Definition vsub (a b : vec) : vec := Vec (vx a - vx b) (vy a - vy b) (vz a - vz b).
Definition vneg (a : vec) : vec := Vec (- vx a) (- vy a) (- vz a).
Definition vdot (a b : vec) : Z := vx a * vx b + vy a * vy b + vz a * vz b.

Definition col0 (M : mat) : vec := Vec (vx (row0 M)) (vx (row1 M)) (vx (row2 M)).
Definition col1 (M : mat) : vec := Vec (vy (row0 M)) (vy (row1 M)) (vy (row2 M)).
Definition col2 (M : mat) : vec := Vec (vz (row0 M)) (vz (row1 M)) (vz (row2 M)).

(** [M.T] *)
Definition transpose (M : mat) : mat := Mat (col0 M) (col1 M) (col2 M).

(** [np.dot(x, M)] for a 1-D [x]: the row vector [x] times [M]. *)
Definition dot_vm (x : vec) (M : mat) : vec :=
  Vec (vdot x (col0 M)) (vdot x (col1 M)) (vdot x (col2 M)).

(** [np.dot(A, B)] for two 2-D arrays: the matrix product. *)
Definition dot_mm (A B : mat) : mat :=
  Mat (dot_vm (row0 A) B) (dot_vm (row1 A) B) (dot_vm (row2 A) B).

(** [np.identity(3)] *)
Definition identity : mat := Mat (Vec 1 0 0) (Vec 0 1 0) (Vec 0 0 1).

(** [np.array_equal(A, B)] *)
Definition array_equal (A B : mat) : bool := bool_decide (A = B).

Definition cross (a b : vec) : vec :=
  Vec (vy a * vz b - vz a * vy b) (vz a * vx b - vx a * vz b) (vx a * vy b - vy a * vx b).

Definition det (M : mat) : Z := vdot (row0 M) (cross (row1 M) (row2 M)).

Definition vquot (a : vec) (d : Z) : vec := Vec (vx a / d) (vy a / d) (vz a / d).

(** [np.linalg.inv(M)]: the adjugate over the determinant; a singular matrix
    raises.  The quotient is exact when the determinant is 1 or -1, which is
    the case of every matrix the program inverts (the symmetry elements).
    On other matrices numpy's inverse is a float64 approximation, and it
    raises only when the elimination meets a pivot that is exactly zero. *)
Definition inv (M : mat) : result mat :=
  let d := det M in
  if d =? 0 then Raise LinAlgError
  else Ok (transpose (Mat (vquot (cross (row1 M) (row2 M)) d)
                          (vquot (cross (row2 M) (row0 M)) d)
                          (vquot (cross (row0 M) (row1 M)) d))).

(** ** Float64 arrays *)

(** A float64 array of shape (3,). *)
Record fvec : Set := FVec { fx : float; fy : float; fz : float }.
Arguments FVec (fx fy fz)%_float.

(** [a + b] and [a - b] on two arrays: entry by entry, each entry rounded. *)
Definition fadd (a b : fvec) : fvec := FVec (fx a + fx b) (fy a + fy b) (fz a + fz b).
Definition fsub (a b : fvec) : fvec := FVec (fx a - fx b) (fy a - fy b) (fz a - fz b).

(** The float64 an integer entry is converted to: the nearest one, ties to
    even; no rounding below 2^53. *)
Definition float64 (z : Z) : float := SF2Prim (binary_normalize prec emax z 0 false).

(** [np.dot(x, y)] for two 1-D arrays, [y] with integer entries: the
    products are rounded one by one and added from the left. *)
Definition fdot (x : fvec) (y : vec) : float :=
  (fx x * float64 (vx y) + fy x * float64 (vy y) + fz x * float64 (vz y))%float.

(** [np.dot(x, M)] for a 1-D float64 array [x]. *)
Definition dot_fm (x : fvec) (M : mat) : fvec :=
  FVec (fdot x (col0 M)) (fdot x (col1 M)) (fdot x (col2 M)).

(** [np.linalg.norm(x)] for a 1-D array: [sqrt(dot(x, x))], the squares
    rounded one by one and added from the left. *)
Definition norm (x : fvec) : float :=
  PrimFloat.sqrt (fx x * fx x + fy x * fy x + fz x * fz x)%float.

(** [np.argmin(args)] on float64 values: the index of the first occurrence
    of the least one, and of the first NaN when there is one.  The scan is
    numpy's: an entry replaces the least one so far unless it is greater or
    equal ([!(x >= least)]), and a NaN ends the scan. *)
Fixpoint argmin_from (best : nat) (least : float) (i : nat) (args : list float) : nat :=
  match args with
  | [] => best
  | x :: args' =>
      if negb (least <=? x)%float
      then if is_nan x then i else argmin_from i x (S i) args'
      else argmin_from best least (S i) args'
  end.

Definition argmin (args : list float) : result nat :=
  match args with
  | [] => Raise ValueError
  | x :: args' => Ok (if is_nan x then 0%nat else argmin_from 0%nat x 1%nat args')
  end.

(** ** Exact values

    What the claims say of Euclidean norms is said of exact numbers.  A
    finite float64 stands for a rational; the norm of a vector of rationals
    is a real. *)

(** The rational a float64 stands for; none for an infinity or a NaN. *)
Definition exact (x : float) : option Q :=
  match Prim2SF x with
  | S754_zero _ => Some 0%Q
  | S754_finite s m e => Some (inject_Z (cond_Zopp s (Zpos m)) * Qpower 2 e)%Q
  | S754_infinity _ | S754_nan => None
  end.

Record qvec : Set := QVec { qx : Q; qy : Q; qz : Q }.

Definition exact_vec (x : fvec) : option qvec :=
  a ← exact (fx x); b ← exact (fy x); c ← exact (fz x); Some (QVec a b c).

Definition qadd (a b : qvec) : qvec := QVec (qx a + qx b) (qy a + qy b) (qz a + qz b).
Definition qsub (a b : qvec) : qvec := QVec (qx a - qx b) (qy a - qy b) (qz a - qz b).

Definition qdot (y : vec) (x : qvec) : Q :=
  (inject_Z (vx y) * qx x + inject_Z (vy y) * qy x + inject_Z (vz y) * qz x)%Q.

(** The matrix applied to a column vector of rationals, [M·x]. *)
Definition qapply (M : mat) (x : qvec) : qvec :=
  QVec (qdot (row0 M) x) (qdot (row1 M) x) (qdot (row2 M) x).

(** The square of the Euclidean norm, and the Euclidean norm. *)
Definition norm2 (x : qvec) : Q := (qx x * qx x + qy x * qy x + qz x * qz x)%Q.
Definition euclidean_norm (x : qvec) : R := sqrt (Q2R (norm2 x)).

(** ** The symmetry group *)

Definition axes : list vec := [Vec 1 0 0; Vec 0 1 0; Vec 0 0 1].
Definition signed_axes : list vec := axes ++ map vneg axes.

(** Modelled from the spec: [utils.chiral_symmetries] is not among the
    sources.  The spec fixes it as the 24 proper rotations of a cube, that is
    the matrices whose rows are signed coordinate axes and whose determinant
    is 1.  The order of the list is not fixed by the spec: the functions
    below take the list as a parameter, and a statement that needs to know
    which matrices it holds assumes it to be a rearrangement of this one. *)
Definition cube_rotations : list mat :=
  filter (λ M, det M = 1)
    (a ← signed_axes; b ← signed_axes; c ← signed_axes; [Mat a b c]).

(** ** Meshes and frames *)

Record Frame (V : Type) : Type := mkFrame { u : V; v : V; w : V; location : V }.
Arguments mkFrame {V} u v w location.
Arguments u {V} f.
Arguments v {V} f.
Arguments w {V} f.
Arguments location {V} f.

(** The frame of rationals a frame of finite float64 entries stands for. *)
Definition exact_frame (f : Frame fvec) : option (Frame qvec) :=
  a ← exact_vec (u f); b ← exact_vec (v f); c ← exact_vec (w f);
  l ← exact_vec (location f); Some (mkFrame a b c l).

(** The tetrahedral mesh, as far as this module reads it.  [V] is the type
    of a point. *)
Record TetMesh (V : Type) : Type := mkTetMesh {
  points : list V;
  elements : list (list Z);                (* vertices of each tetrahedron *)
  edges : list (Z * Z);                    (* endpoints of each edge *)
  adjacent_elements : list (Z * Z);        (* the two tetrahedra of each face *)
  edge_adjacent_elements : list Z;         (* one tetrahedron at each edge *)
  neighbors : list (list Z)                (* face neighbours of each tetrahedron *)
}.
Arguments mkTetMesh {V} points elements edges adjacent_elements edge_adjacent_elements neighbors.
Arguments points {V} t.
Arguments elements {V} t.
Arguments edges {V} t.
Arguments adjacent_elements {V} t.
Arguments edge_adjacent_elements {V} t.
Arguments neighbors {V} t.

(** The surface mesh with its curvature data. *)
Record SurfMesh (V : Type) : Type := mkSurfMesh {
  faces : list (list Z);
  face_map_inv : gmap Z Z;                 (* [face_map.inv] *)
  vertex_map : gset Z;                     (* keys of [vertex_map] *)
  k1 : list Q;
  k2 : list Q;
  pdir1 : list V;
  pdir2 : list V;
  vertex_normals : list V
}.
Arguments mkSurfMesh {V} faces face_map_inv vertex_map k1 k2 pdir1 pdir2 vertex_normals.
Arguments faces {V} s.
Arguments face_map_inv {V} s.
Arguments vertex_map {V} s.
Arguments k1 {V} s.
Arguments k2 {V} s.
Arguments pdir1 {V} s.
Arguments pdir2 {V} s.
Arguments vertex_normals {V} s.

(** ** [init_framefield] *)

(** [math.isclose(a, b)] with its default tolerances. *)
Definition rel_tol : Q := 1 # 1000000000.
Definition abs_tol : Q := 0.

Definition isclose (a b : Q) : bool :=
  Qle_bool (Qabs (a - b)) (Qmax (rel_tol * Qmax (Qabs a) (Qabs b)) abs_tol).

(** [np.vstack(rows)]: an empty sequence of rows raises. *)
Definition vstack {V : Type} (rows : list V) : result (list V) :=
  match rows with
  | [] => Raise ValueError
  | _ => Ok rows
  end.

Section FieldInitializer.
Context {V : Type}.

(** [utils.tet_centroid] is not among the sources and is taken as given. *)
Variable tet_centroid : TetMesh V → Z → result V.

(** [spatial.KDTree(data).query(x)[1]]: the position in [data] of the point
    the index reports as nearest to [x]. *)
Variable kdtree_query : list V → V → Z.

(** The body of the loop over the surface faces. *)
Definition boundary_face (tet_mesh : TetMesh V) (surf_mesh : SurfMesh V)
    (boundary_frames : list (Frame V)) (f : Z * list Z) : result (list (Frame V)) :=
  let '(fi, surf_face) := f in
  vfi ← dict_get (face_map_inv surf_mesh) fi;
  pair ← py_get (adjacent_elements tet_mesh) vfi;
  let ti := pair.1 in
  tet ← py_get (elements tet_mesh) ti;
  flat ← (a ← py_get surf_face 0;
          ka ← py_get (k1 surf_mesh) a;
          if isclose ka 0
          then kb ← py_get (k2 surf_mesh) a; mret (isclose kb 0)
          else mret false);
  if (flat : bool) then mret boundary_frames
  else
    a ← py_get surf_face 0;
    d1 ← py_get (pdir1 surf_mesh) a;
    d2 ← py_get (pdir2 surf_mesh) a;
    n ← py_get (vertex_normals surf_mesh) a;
    c ← tet_centroid tet_mesh ti;
    mret (boundary_frames ++ [mkFrame d1 d2 n c]).

(** The body of the loop over the tetrahedra. *)
Definition propagate (tet_mesh : TetMesh V) (boundary_frames : list (Frame V))
    (tree : list V) (frames : list (Frame V)) (t : Z * list Z) : result (list (Frame V)) :=
  let '(ti, tet) := t in
  location ← tet_centroid tet_mesh ti;
  let nearest_ti := kdtree_query tree location in
  fu ← py_get boundary_frames nearest_ti;
  fv ← py_get boundary_frames nearest_ti;
  fw ← py_get boundary_frames nearest_ti;
  mret (frames ++ [mkFrame (u fu) (v fv) (w fw) location]).

Definition collect_boundary_frames (tet_mesh : TetMesh V) (surf_mesh : SurfMesh V)
    : result (list (Frame V)) :=
  for_each (boundary_face tet_mesh surf_mesh) (enumerate (faces surf_mesh)) [].

Definition init_framefield (tet_mesh : TetMesh V) (surf_mesh : SurfMesh V)
    : result (list (Frame V)) :=
  boundary_frames ← collect_boundary_frames tet_mesh surf_mesh;
  tree ← vstack (location <$> boundary_frames);
  for_each (propagate tet_mesh boundary_frames tree) (enumerate (elements tet_mesh)) [].
End FieldInitializer.

(** ** [compute_onerings] *)

Section OneRingBuilder.
Context {V : Type}.

(** The [for neigh_ti in ...] loop: the first neighbour that is picked, if
    the loop reaches its [break]. *)
Fixpoint scan (tet_mesh : TetMesh V) (edge : Z * Z) (one_ring : list Z)
    (ns : list Z) : result (option Z) :=
  match ns with
  | [] => mret None
  | neigh_ti :: ns' =>
      neighbor ← py_get (elements tet_mesh) neigh_ti;
      if (neigh_ti =? -1) || py_in neigh_ti one_ring
      then scan tet_mesh edge one_ring ns'
      else if py_in edge.1 neighbor && py_in edge.2 neighbor
           then mret (Some neigh_ti)
           else scan tet_mesh edge one_ring ns'
  end.

(** The [while not finished] loop; one unit of fuel per turn. *)
Fixpoint walk (fuel : nat) (tet_mesh : TetMesh V) (edge : Z * Z)
    (one_ring : list Z) : result (list Z) :=
  match fuel with
  | O => Raise OutOfFuel
  | S fuel' =>
      last ← py_get one_ring (-1);
      ns ← py_get (neighbors tet_mesh) last;
      found ← scan tet_mesh edge one_ring ns;
      match found with
      | Some neigh_ti => walk fuel' tet_mesh edge (one_ring ++ [neigh_ti])
      | None => mret one_ring
      end
  end.

(** Every turn but the last appends a tetrahedron that indexes [elements]
    and is new to the ring, so this many turns are never used up (see
    [compute_onerings_terminates]). *)
Definition walk_fuel (tet_mesh : TetMesh V) : nat :=
  2 * length (elements tet_mesh) + 2.

(** The body of the loop over the edges. *)
Definition ring_edge (tet_mesh : TetMesh V) (surf_mesh : SurfMesh V)
    (one_rings : gmap Z (list Z)) (e : Z * (Z * Z)) : result (gmap Z (list Z)) :=
  let '(ei, edge) := e in
  if bool_decide (edge.1 ∈ vertex_map surf_mesh) && bool_decide (edge.2 ∈ vertex_map surf_mesh)
  then mret one_rings
  else
    seed ← py_get (edge_adjacent_elements tet_mesh) ei;
    one_ring ← walk (walk_fuel tet_mesh) tet_mesh edge [seed];
    mret (<[ei := one_ring]> one_rings).

Definition compute_onerings (tet_mesh : TetMesh V) (surf_mesh : SurfMesh V)
    : result (gmap Z (list Z)) :=
  for_each (ring_edge tet_mesh surf_mesh) (enumerate (edges tet_mesh)) ∅.
End OneRingBuilder.

(** ** [singular_graph] *)

Section SingularGraph.
Context {V : Type}.

(** [utils.chiral_symmetries] *)
Variable chiral_symmetries : list mat.

(** The array whose norm scores [permutation] for the frames [fi], [fj]:
    the six terms are added and subtracted from the left, as float64
    arrays. *)
Definition residual (fi fj : Frame fvec) (permutation : mat) : fvec :=
  fsub (fadd (fsub (fadd (fsub (u fi) (dot_fm (u fj) (transpose permutation)))
                         (v fi)) (dot_fm (v fj) (transpose permutation)))
             (w fi)) (dot_fm (w fj) (transpose permutation)).

(** The vector in the words of the spec, on exact numbers:
    (u_i − R·u_j) + (v_i − R·v_j) + (w_i − R·w_j). *)
Definition combined_residual (fi fj : Frame qvec) (R : mat) : qvec :=
  qadd (qadd (qsub (u fi) (qapply R (u fj))) (qsub (v fi) (qapply R (v fj))))
       (qsub (w fi) (qapply R (w fj))).

(** The body of the loop over [chiral_symmetries]. *)
Definition score (frames : list (Frame fvec)) (pair : Z * Z)
    (args : list float) (permutation : mat) : result (list float) :=
  fi ← py_get frames pair.1;
  fj ← py_get frames pair.2;
  mret (args ++ [norm (residual fi fj permutation)]).

(** The loop over [chiral_symmetries] and the element it settles on:
    [chiral_symmetries[np.argmin(args)]]. *)
Definition best_match (frames : list (Frame fvec)) (pair : Z * Z) : result mat :=
  args ← for_each (score frames pair) chiral_symmetries [];
  k ← argmin args;
  py_get chiral_symmetries (Z.of_nat k).

(** The body of the loop over [adjacent_elements]. *)
Definition match_pair (frames : list (Frame fvec)) (matchings : gmap (Z * Z) mat)
    (pair : Z * Z) : result (gmap (Z * Z) mat) :=
  if (pair.1 =? -1) || (pair.2 =? -1) then mret matchings
  else
    R ← best_match frames pair;
    mret (<[pair := R]> matchings).

Definition compute_matchings (tet_mesh : TetMesh V) (frames : list (Frame fvec))
    : result (gmap (Z * Z) mat) :=
  for_each (match_pair frames) (adjacent_elements tet_mesh) ∅.

(** The body of the loop over the positions of a one-ring.  [matching] is
    assigned and not read, as in the source. *)
Definition turn (matchings : gmap (Z * Z) mat) (one_ring : list Z)
    (type : mat) (i : Z) : result mat :=
  a ← py_get one_ring ((i + 1) `mod` Z.of_nat (length one_ring));
  b ← py_get one_ring i;
  let pair := (a, b) in
  '(pair, matching) ←
    (match matchings !! pair with
     | None =>
         let pair := (pair.2, pair.1) in
         M ← dict_get matchings pair;
         matching ← inv M;
         mret (pair, matching)
     | Some M => mret (pair, M)
     end);
  M ← dict_get matchings pair;
  mret (dot_mm type M).

(** The accumulator [type] after the walk around a one-ring. *)
Definition holonomy (matchings : gmap (Z * Z) mat) (one_ring : list Z) : result mat :=
  for_each (turn matchings one_ring) (py_range (length one_ring)) identity.

(** The walk as the spec words it, for comparison with [turn]: the
    accumulator is multiplied by the matching of the pair or, when only the
    reversed pair is stored, by the inverse of that one. *)
Definition turn_as_specified (matchings : gmap (Z * Z) mat) (one_ring : list Z)
    (type : mat) (i : Z) : result mat :=
  a ← py_get one_ring ((i + 1) `mod` Z.of_nat (length one_ring));
  b ← py_get one_ring i;
  matching ←
    (match matchings !! (a, b) with
     | None => M ← dict_get matchings (b, a); inv M
     | Some M => mret M
     end);
  mret (dot_mm type matching).

Definition holonomy_as_specified (matchings : gmap (Z * Z) mat) (one_ring : list Z)
    : result mat :=
  for_each (turn_as_specified matchings one_ring) (py_range (length one_ring)) identity.

(** The body of the loop over the edges. *)
Definition classify_edge (matchings : gmap (Z * Z) mat) (one_rings : gmap Z (list Z))
    (lines : list (Z * Z)) (e : Z * (Z * Z)) : result (list (Z * Z)) :=
  let '(ei, edge) := e in
  match one_rings !! ei with
  | None => mret lines
  | Some one_ring =>
      type ← holonomy matchings one_ring;
      if negb (array_equal type identity) then mret (lines ++ [edge]) else mret lines
  end.

(** The function hands its result to [plot_lines]; the value here is the
    pair of arguments of that call. *)
Definition singular_graph (tet_mesh : TetMesh V) (one_rings : gmap Z (list Z))
    (frames : list (Frame fvec)) : result (list (Z * Z) * list V) :=
  matchings ← compute_matchings tet_mesh frames;
  lines ← for_each (classify_edge matchings one_rings) (enumerate (edges tet_mesh)) [];
  mret (lines, points tet_mesh).
End SingularGraph.

(** ** A sample mesh

    An octahedron cut into eight tetrahedra around its centre.  Vertex 0 is
    the centre, 1 the top, 2..5 the equator and 6 the bottom; the six edges
    from the centre are the internal ones. *)

Module Octahedron.

Definition pts : list vec :=
  [Vec 0 0 0; Vec 0 0 4; Vec 4 0 0; Vec 0 4 0; Vec (-4) 0 0; Vec 0 (-4) 0; Vec 0 0 (-4)].

Definition tets : list (list Z) :=
  [[0; 1; 2; 3]; [0; 1; 3; 4]; [0; 1; 4; 5]; [0; 1; 5; 2];
   [0; 6; 3; 2]; [0; 6; 4; 3]; [0; 6; 5; 4]; [0; 6; 2; 5]].

Definition edge_list : list (Z * Z) :=
  [(0, 1); (0, 2); (0, 3); (0, 4); (0, 5); (0, 6);
   (1, 2); (1, 3); (1, 4); (1, 5); (2, 3); (3, 4); (4, 5); (5, 2);
   (6, 2); (6, 3); (6, 4); (6, 5)].

(** Faces 0..7 are the outer triangles, 8..19 the inner ones. *)
Definition face_tets : list (Z * Z) :=
  [(0, -1); (1, -1); (2, -1); (3, -1); (4, -1); (5, -1); (6, -1); (7, -1);
   (0, 1); (2, 1); (2, 3); (3, 0);
   (0, 4); (1, 5); (2, 6); (3, 7);
   (4, 5); (5, 6); (6, 7); (7, 4)].

Definition edge_tets : list Z :=
  [0; 0; 0; 1; 2; 4; 0; 0; 1; 2; 0; 1; 2; 3; 4; 4; 5; 6].

(** The neighbour across the face opposite to each vertex. *)
Definition tet_neighbors : list (list Z) :=
  [[-1; 4; 1; 3]; [-1; 5; 2; 0]; [-1; 6; 3; 1]; [-1; 7; 0; 2];
   [-1; 0; 7; 5]; [-1; 1; 4; 6]; [-1; 2; 5; 7]; [-1; 3; 6; 4]].

Definition mesh : TetMesh vec :=
  mkTetMesh pts tets edge_list face_tets edge_tets tet_neighbors.

(** The same solid with a slit: tetrahedra 2 and 3 no longer see each
    other across the face (0, 1, 5), and tetrahedron 1 is the one recorded
    at edge 0. *)
Definition slit_mesh : TetMesh vec :=
  mkTetMesh pts tets edge_list face_tets
    [1; 0; 0; 1; 2; 4; 0; 0; 1; 2; 0; 1; 2; 3; 4; 4; 5; 6]
    [[-1; 4; 1; 3]; [-1; 5; 2; 0]; [-1; 6; -1; 1]; [-1; 7; 0; -1];
     [-1; 0; 7; 5]; [-1; 1; 4; 6]; [-1; 2; 5; 7]; [-1; 3; 6; 4]].

(** The surface: vertex [i] of the surface is vertex [i + 1] of the solid,
    face [i] of the surface is face [i] of the solid. *)
Definition surface (ka kb : list Q) : SurfMesh vec :=
  mkSurfMesh
    [[0; 1; 2]; [0; 2; 3]; [0; 3; 4]; [0; 4; 1]; [5; 2; 1]; [5; 3; 2]; [5; 4; 3]; [5; 1; 4]]
    (list_to_map [(0, 0); (1, 1); (2, 2); (3, 3); (4, 4); (5, 5); (6, 6); (7, 7)])
    (list_to_set [1; 2; 3; 4; 5; 6])
    ka kb
    [Vec 1 0 0; Vec 0 1 0; Vec 0 0 1; Vec 0 1 0; Vec 0 0 1; Vec 1 0 0]
    [Vec 0 1 0; Vec 0 0 1; Vec 1 0 0; Vec 0 0 (-1); Vec (-1) 0 0; Vec 0 (-1) 0]
    [Vec 0 0 1; Vec 1 0 0; Vec 0 1 0; Vec (-1) 0 0; Vec 0 (-1) 0; Vec 0 0 (-1)].

Definition quarter : Q := 1 # 4.
Definition round_surface : SurfMesh vec :=
  surface [quarter; quarter; quarter; quarter; quarter; quarter]
          [quarter; quarter; quarter; quarter; quarter; quarter].

(** Every vertex flat. *)
Definition flat_surface : SurfMesh vec :=
  surface [0; 0; 0; 0; 0; 0]%Q [0; 0; 0; 0; 0; 0]%Q.

(** Flat but for a curvature of 1e-12 at the top vertex. *)
Definition tiny : Q := 1 # 1000000000000.
Definition nearly_flat_surface : SurfMesh vec :=
  surface [tiny; 0; 0; 0; 0; 0]%Q [0; 0; 0; 0; 0; 0]%Q.

(** Modelled from the spec: [utils.tet_centroid] is not among the sources.
    The centroid is the centre of the four corners; the sample points are
    multiples of 4, so the quotient is exact. *)
Definition centroid (tet_mesh : TetMesh vec) (ti : Z) : result vec :=
  tet ← py_get (elements tet_mesh) ti;
  corners ← for_each (λ acc vi, p ← py_get (points tet_mesh) vi; mret (vadd acc p))
                     tet (Vec 0 0 0);
  mret (vquot corners 4).

(** A nearest-neighbour query by exhaustive search, the first of the
    nearest points winning. *)
Definition distance2 (p x : vec) : Z := vdot (vsub p x) (vsub p x).

Fixpoint nearest_from (best : Z) (least : Z) (i : Z) (data : list vec) (x : vec) : Z :=
  match data with
  | [] => best
  | p :: data' =>
      if distance2 p x <? least then nearest_from i (distance2 p x) (i + 1) data' x
      else nearest_from best least (i + 1) data' x
  end.

Definition nearest (data : list vec) (x : vec) : Z :=
  match data with
  | [] => 0
  | p :: data' => nearest_from 0 (distance2 p x) 1 data' x
  end.

(** A frame with distinct scales on its axes, and the same frame turned by
    a quarter turn about the z axis. *)
Definition quarter_turn : mat := Mat (Vec 0 (-1) 0) (Vec 1 0 0) (Vec 0 0 1).

Definition plain (c : fvec) : Frame fvec :=
  mkFrame (FVec 3 0 0) (FVec 0 2 0) (FVec 0 0 1) c.
Definition turned (c : fvec) : Frame fvec :=
  mkFrame (FVec 0 3 0) (FVec (-2) 0 0) (FVec 0 0 1) c.

(** The field that is turned on tetrahedron 1 only. *)
Definition field : list (Frame fvec) :=
  [plain (FVec 1 1 1); turned (FVec (-1) 1 1); plain (FVec (-1) (-1) 1); plain (FVec 1 (-1) 1);
   plain (FVec 1 1 (-1)); plain (FVec (-1) 1 (-1)); plain (FVec (-1) (-1) (-1));
   plain (FVec 1 (-1) (-1))].

(** The one-rings of the six internal edges. *)
Definition rings : gmap Z (list Z) :=
  list_to_map [(0, [0; 1; 2; 3]); (1, [0; 4; 7; 3]); (2, [0; 4; 5; 1]);
               (3, [1; 5; 6; 2]); (4, [2; 6; 7; 3]); (5, [4; 7; 6; 5])].

(** The matchings of that field. *)
Definition field_matchings : gmap (Z * Z) mat :=
  list_to_map
    [((0, 1), transpose quarter_turn); ((2, 1), transpose quarter_turn);
     ((2, 3), identity); ((3, 0), identity);
     ((0, 4), identity); ((1, 5), quarter_turn); ((2, 6), identity); ((3, 7), identity);
     ((4, 5), identity); ((5, 6), identity); ((6, 7), identity); ((7, 4), identity)].

Definition half_turn : mat := Mat (Vec (-1) 0 0) (Vec 0 (-1) 0) (Vec 0 0 1).

(** A second field: frames with other scales on tetrahedra 0 and 1. *)
Definition skew_field : list (Frame fvec) :=
  [mkFrame (FVec 5 0 0) (FVec 0 4 0) (FVec 0 0 3) (FVec 1 1 1);
   mkFrame (FVec 2 0 0) (FVec 0 4 0) (FVec 0 0 6) (FVec (-1) 1 1);
   plain (FVec (-1) (-1) 1); plain (FVec 1 (-1) 1);
   plain (FVec 1 1 (-1)); plain (FVec (-1) 1 (-1)); plain (FVec (-1) (-1) (-1));
   plain (FVec 1 (-1) (-1))].

(** The field [init_framefield] gives on the round surface. *)
Definition initial_field : list (Frame vec) :=
  [mkFrame (Vec 1 0 0) (Vec 0 1 0) (Vec 0 0 1) (Vec 1 1 1);
   mkFrame (Vec 1 0 0) (Vec 0 1 0) (Vec 0 0 1) (Vec (-1) 1 1);
   mkFrame (Vec 1 0 0) (Vec 0 1 0) (Vec 0 0 1) (Vec (-1) (-1) 1);
   mkFrame (Vec 1 0 0) (Vec 0 1 0) (Vec 0 0 1) (Vec 1 (-1) 1);
   mkFrame (Vec 1 0 0) (Vec 0 (-1) 0) (Vec 0 0 (-1)) (Vec 1 1 (-1));
   mkFrame (Vec 1 0 0) (Vec 0 (-1) 0) (Vec 0 0 (-1)) (Vec (-1) 1 (-1));
   mkFrame (Vec 1 0 0) (Vec 0 (-1) 0) (Vec 0 0 (-1)) (Vec (-1) (-1) (-1));
   mkFrame (Vec 1 0 0) (Vec 0 (-1) 0) (Vec 0 0 (-1)) (Vec 1 (-1) (-1))].

End Octahedron.

(** ** Notions used in the statements *)

(** [i] is an index Python accepts on [l]. *)
Definition is_index {A : Type} (l : list A) (i : Z) : Prop :=
  - Z.of_nat (length l) ≤ i < Z.of_nat (length l).

(** The walk around [edge] cannot be carried on from [ring]: no neighbour of
    its last tetrahedron is picked. *)
Definition stopped {V : Type} (tet_mesh : TetMesh V) (edge : Z * Z) (ring : list Z) : Prop :=
  ∃ last ns,
    py_get ring (-1) = Ok last ∧
    py_get (neighbors tet_mesh) last = Ok ns ∧
    scan tet_mesh edge ring ns = Ok None.

(** The tetrahedron [t] has both endpoints of [edge] among its vertices. *)
Definition shares_edge {V : Type} (tet_mesh : TetMesh V) (edge : Z * Z) (t : Z) : Prop :=
  ∃ tet, py_get (elements tet_mesh) t = Ok tet ∧ edge.1 ∈ tet ∧ edge.2 ∈ tet.

(** The edge is one [compute_onerings] treats as internal. *)
Definition internal {V : Type} (surf_mesh : SurfMesh V) (edge : Z * Z) : Prop :=
  ¬ (edge.1 ∈ vertex_map surf_mesh ∧ edge.2 ∈ vertex_map surf_mesh).

(** Every index the one-ring builder reads from the mesh is in range: there
    is a recorded tetrahedron for every edge, and the recorded tetrahedra and
    the entries of the neighbour lists (the sentinel -1 included) index both
    [neighbors] and [elements]. *)
Definition indices_in_range {V : Type} (tet_mesh : TetMesh V) : Prop :=
  (length (edges tet_mesh) ≤ length (edge_adjacent_elements tet_mesh))%nat ∧
  Forall (is_index (neighbors tet_mesh)) (edge_adjacent_elements tet_mesh) ∧
  Forall (Forall (λ t, is_index (elements tet_mesh) t ∧ is_index (neighbors tet_mesh) t))
         (neighbors tet_mesh).

(** [k] is the position [np.argmin] gives on [args]: that of the first NaN
    if there is one; otherwise that of an entry which is less or equal to
    every entry and less than every earlier one. *)
Definition first_minimum (args : list float) (k : nat) : Prop :=
  ∃ y, args !! k = Some y ∧
       ((is_nan y = true ∧
         ∀ j x, (j < k)%nat → args !! j = Some x → is_nan x = false) ∨
        ((∀ j x, args !! j = Some x → (y <=? x)%float = true) ∧
         (∀ j x, (j < k)%nat → args !! j = Some x → (y <? x)%float = true))).

(** Neither entry of the pair is the sentinel. *)
Definition interior (pair : Z * Z) : Prop := pair.1 ≠ -1 ∧ pair.2 ≠ -1.

#[global] Instance interior_dec (pair : Z * Z) : Decision (interior pair).
Proof. unfold interior. apply _. Defined.

(** The edge [e], with its index, is one the classifier lists: it has a
    one-ring and the accumulator of the walk around it is not the identity. *)
Definition singular_edge (matchings : gmap (Z * Z) mat) (one_rings : gmap Z (list Z))
    (e : Z * (Z * Z)) : bool :=
  match one_rings !! e.1 with
  | None => false
  | Some one_ring =>
      match holonomy matchings one_ring with
      | Ok type => bool_decide (type ≠ identity)
      | Raise _ => false
      end
  end.

(** The scores of all candidates for the frames [fi] and [fj], in the order
    of the list. *)
Definition scores (chiral_symmetries : list mat) (fi fj : Frame fvec) : list float :=
  (λ R, norm (residual fi fj R)) <$> chiral_symmetries.

(** The 24 matrices of [cube_rotations], written out. *)
Definition cube_rotations_table : list mat := Eval vm_compute in cube_rotations.

(** The matrix applied to a column vector, [M·x], in float64. *)
Definition fapply (M : mat) (x : fvec) : fvec :=
  FVec (fdot x (row0 M)) (fdot x (row1 M)) (fdot x (row2 M)).

(** The score of the candidate [R] for the frames [fi], [fj] as float64
    arithmetic gives it: the six terms of the combined residual are added
    and subtracted in the order u, v, w, each operation rounded, and the
    norm is the rounded square root of the squares added from the left. *)
Definition float64_score (fi fj : Frame fvec) (R : mat) : float :=
  let x := fsub (fadd (fsub (fadd (fsub (u fi) (fapply R (u fj))) (v fi))
                            (fapply R (v fj))) (w fi)) (fapply R (w fj)) in
  PrimFloat.sqrt (fx x * fx x + fy x * fy x + fz x * fz x)%float.

(** The float64 scores of the candidates for [fi], [fj] are numbers, and
    they compare as the exact Euclidean norms of the combined residuals do:
    no rounding has changed the outcome of a comparison. *)
Definition ordered_as_exact (chiral_symmetries : list mat) (fi fj : Frame fvec) : bool :=
  match exact_frame fi, exact_frame fj with
  | Some qi, Some qj =>
      forallb (λ R, forallb (λ R',
        Bool.eqb (float64_score fi fj R <=? float64_score fi fj R')%float
                 (Qle_bool (norm2 (combined_residual qi qj R))
                           (norm2 (combined_residual qi qj R'))))
        chiral_symmetries) chiral_symmetries
  | _, _ => false
  end.

(** No step of the walk around [one_ring] depends on how a reversed pair is
    treated: where only the reversed pair is stored, the matrix stored for
    it is its own inverse. *)
Definition reversed_steps_self_inverse (matchings : gmap (Z * Z) mat)
    (one_ring : list Z) : Prop :=
  ∀ i a b M, 0 ≤ i < Z.of_nat (length one_ring) →
    py_get one_ring ((i + 1) `mod` Z.of_nat (length one_ring)) = Ok a →
    py_get one_ring i = Ok b →
    matchings !! (a, b) = None → matchings !! (b, a) = Some M →
    inv M = Ok M.

(** The edge [e], with its index, is singular in the words of the spec: it
    has a one-ring, and the accumulator composed around it, with the
    inverse where only the reversed pair is stored, is not the identity. *)
Definition singular_as_specified (matchings : gmap (Z * Z) mat) (one_rings : gmap Z (list Z))
    (e : Z * (Z * Z)) : bool :=
  match one_rings !! e.1 with
  | None => false
  | Some one_ring =>
      match holonomy_as_specified matchings one_ring with
      | Ok type => bool_decide (type ≠ identity)
      | Raise _ => false
      end
  end.

(** ** The failure of the initializer as the spec words it

    The spec names an error of the initializer's own for the case that no
    boundary frame is left.  The source has no exception class and no
    [raise] statement: every exception of [exn] is one that Python or numpy
    raises. *)
Inductive outcome (A : Type) : Type :=
| Returns (a : A)
| Raises (e : exn)
| InitializationError.
Arguments Returns {A} a.
Arguments Raises {A} e.
Arguments InitializationError {A}.

Definition outcome_of {A : Type} (r : result A) : outcome A :=
  match r with
  | Ok a => Returns a
  | Raise e => Raises e
  end.

(** The initializer with the check the spec asks for, for comparison with
    [init_framefield]: the list of boundary frames is tested before it is
    stacked, and an empty one is reported. *)
Definition init_framefield_as_specified {V : Type}
    (tet_centroid : TetMesh V → Z → result V) (kdtree_query : list V → V → Z)
    (tet_mesh : TetMesh V) (surf_mesh : SurfMesh V) : outcome (list (Frame V)) :=
  match collect_boundary_frames tet_centroid tet_mesh surf_mesh with
  | Raise e => Raises e
  | Ok [] => InitializationError
  | Ok boundary_frames =>
      outcome_of
        (tree ← vstack (location <$> boundary_frames);
         for_each (propagate tet_centroid kdtree_query tet_mesh boundary_frames tree)
                  (enumerate (elements tet_mesh)) [])
  end.

(** ** Matchings that do not depend on the order of the list

    [R] alone has the least score for the frames [fi], [fj]. *)
Definition unique_least (fi fj : Frame fvec) (R : mat) : bool :=
  forallb (λ R', bool_decide (R' = R)
                 || (norm (residual fi fj R) <? norm (residual fi fj R'))%float)
          cube_rotations.

(** [X] has the least float64 score of the elements of the list. *)
Definition least_score (cs : list mat) (fi fj : Frame fvec) (X : mat) : bool :=
  forallb (λ Y, (float64_score fi fj X <=? float64_score fi fj Y)%float) cs.

(** The matching of [pair] is settled: one rotation alone has the least
    score. *)
Definition settled (frames : list (Frame fvec)) (pair : Z * Z) : bool :=
  match best_match cube_rotations frames pair,
        py_get frames pair.1, py_get frames pair.2 with
  | Ok R, Ok fi, Ok fj => unique_least fi fj R
  | _, _, _ => false
  end.

Definition all_settled {V : Type} (tet_mesh : TetMesh V) (frames : list (Frame fvec)) : bool :=
  forallb (λ pair, negb (bool_decide (interior pair)) || settled frames pair)
          (adjacent_elements tet_mesh).

(** The two rotations that turn the axes cyclically. *)
Definition cycle : mat := Mat (Vec 0 0 1) (Vec 1 0 0) (Vec 0 1 0).
Definition cycle_back : mat := Mat (Vec 0 1 0) (Vec 0 0 1) (Vec 1 0 0).

(** ** [optimize_framefield] and further sample data *)

(** The body is [pass]: the call returns [None] and leaves its arguments as
    they are. *)
Definition optimize_framefield {V : Type} (tet_mesh : TetMesh V)
    (frames : list (Frame fvec)) : result unit :=
  mret ().

(** The first vertex of the face has both curvatures exactly zero. *)
Definition flat_face {V : Type} (surf_mesh : SurfMesh V) (surf_face : list Z) : bool :=
  match py_get surf_face 0 with
  | Ok a =>
      match py_get (k1 surf_mesh) a, py_get (k2 surf_mesh) a with
      | Ok ka, Ok kb => Qeq_bool ka 0 && Qeq_bool kb 0
      | _, _ => false
      end
  | Raise _ => false
  end.

(** Every entry of the neighbour lists is a tetrahedron counted from 0 or
    the sentinel -1. *)
Definition neighbors_from_sentinel {V : Type} (tet_mesh : TetMesh V) : Prop :=
  Forall (Forall (λ t, -1 ≤ t)) (neighbors tet_mesh).

(** The face with index [fi] has its tetrahedron looked up: the face map
    gives a face of the solid, whose first tetrahedron is in the mesh. *)
Definition face_resolved {V : Type} (tet_mesh : TetMesh V) (surf_mesh : SurfMesh V)
    (fi : Z) : Prop :=
  ∃ vfi pair tet,
    face_map_inv surf_mesh !! fi = Some vfi ∧
    py_get (adjacent_elements tet_mesh) vfi = Ok pair ∧
    py_get (elements tet_mesh) pair.1 = Ok tet.

(** [frame] is the boundary frame of the face [f]: the two principal
    directions and the normal at the first vertex of the face, at the
    centroid of the first tetrahedron of the face. *)
Definition frame_of_face {V : Type} (tet_centroid : TetMesh V → Z → result V)
    (tet_mesh : TetMesh V) (surf_mesh : SurfMesh V) (f : Z * list Z) (frame : Frame V) : Prop :=
  ∃ a vfi pair,
    py_get f.2 0 = Ok a ∧
    face_map_inv surf_mesh !! f.1 = Some vfi ∧
    py_get (adjacent_elements tet_mesh) vfi = Ok pair ∧
    py_get (pdir1 surf_mesh) a = Ok (u frame) ∧
    py_get (pdir2 surf_mesh) a = Ok (v frame) ∧
    py_get (vertex_normals surf_mesh) a = Ok (w frame) ∧
    tet_centroid tet_mesh pair.1 = Ok (location frame).

Module Samples.
Import Octahedron.

(** The surface of the sample mesh with every vertex, the centre included,
    among the boundary vertices. *)
Definition all_boundary_surface : SurfMesh vec :=
  mkSurfMesh (faces round_surface) (face_map_inv round_surface)
    (list_to_set [0; 1; 2; 3; 4; 5; 6])
    (k1 round_surface) (k2 round_surface) (pdir1 round_surface) (pdir2 round_surface)
    (vertex_normals round_surface).

(** The sample mesh without its table of tetrahedra at the edges. *)
Definition mesh_without_edge_tets : TetMesh vec :=
  mkTetMesh pts tets edge_list face_tets [] tet_neighbors.

(** The sample mesh with its face table read backwards. *)
Definition mesh_faces_reversed : TetMesh vec :=
  mkTetMesh pts tets edge_list (reverse face_tets) edge_tets tet_neighbors.

(** A field on which two candidates of different exact scores get the
    same float64 score.  Of the frames of tetrahedra 0 to 3 only the vector
    u is not zero: (2^28 + 1, 2^28, 0) on tetrahedron 0,
    (2^28, 2^28 + 1, 0) on tetrahedron 2, and (0, 0, 1) on tetrahedra 1
    and 3. *)
Definition near_tie_field : list (Frame fvec) :=
  [mkFrame (FVec 268435457 268435456 0) (FVec 0 0 0) (FVec 0 0 0) (FVec 1 1 1);
   mkFrame (FVec 0 0 1) (FVec 0 0 0) (FVec 0 0 0) (FVec (-1) 1 1);
   mkFrame (FVec 268435456 268435457 0) (FVec 0 0 0) (FVec 0 0 0) (FVec (-1) (-1) 1);
   mkFrame (FVec 0 0 1) (FVec 0 0 0) (FVec 0 0 0) (FVec 1 (-1) 1);
   plain (FVec 1 1 (-1)); plain (FVec (-1) 1 (-1)); plain (FVec (-1) (-1) (-1));
   plain (FVec 1 (-1) (-1))].

(** Two frames of which only the vector u is not zero: (0, 0, 3) and
    (3, 2^28, 2^28). *)
Definition rounded_pair : list (Frame fvec) :=
  [mkFrame (FVec 0 0 3) (FVec 0 0 0) (FVec 0 0 0) (FVec 1 1 1);
   mkFrame (FVec 3 268435456 268435456) (FVec 0 0 0) (FVec 0 0 0) (FVec (-1) 1 1)].

(** The quarter turn about the x axis that takes the z axis to the y axis. *)
Definition quarter_about_x : mat := Mat (Vec 1 0 0) (Vec 0 0 1) (Vec 0 (-1) 0).

(** Three tetrahedra around the edge (0, 1).  The faces between them are
    stored as (1, 0), (2, 1) and (2, 0), so that the walk around the edge
    meets the last of them reversed. *)
Definition fan : TetMesh vec :=
  mkTetMesh [Vec 0 0 0; Vec 0 0 4; Vec 4 0 0; Vec (-2) 3 0; Vec (-2) (-3) 0]
            [[0; 1; 2; 3]; [0; 1; 3; 4]; [0; 1; 4; 2]]
            [(0, 1); (0, 2); (0, 3); (0, 4); (1, 2); (1, 3); (1, 4); (2, 3); (3, 4); (4, 2)]
            [(1, 0); (2, 1); (2, 0); (0, -1); (0, -1); (1, -1); (1, -1); (2, -1); (2, -1)]
            [0; 0; 0; 1; 0; 0; 1; 0; 1; 2]
            [[-1; -1; 1; 2]; [-1; -1; 2; 0]; [-1; -1; 0; 1]].

Definition fan_rings : gmap Z (list Z) := {[ 0 := [0; 1; 2] ]}.

(** The frame of the first sample field on tetrahedron 0, the same frame
    turned a quarter turn about the x axis on tetrahedron 1, and turned a
    half turn about the z axis on tetrahedron 2. *)
Definition fan_field : list (Frame fvec) :=
  [mkFrame (FVec 3 0 0) (FVec 0 2 0) (FVec 0 0 1) (FVec 1 1 1);
   mkFrame (FVec 3 0 0) (FVec 0 0 (-2)) (FVec 0 1 0) (FVec (-1) 1 1);
   mkFrame (FVec (-3) 0 0) (FVec 0 (-2) 0) (FVec 0 0 1) (FVec 0 (-1) 1)].

Definition fan_matchings : gmap (Z * Z) mat :=
  list_to_map [((1, 0), quarter_about_x);
               ((2, 1), Mat (Vec (-1) 0 0) (Vec 0 0 1) (Vec 0 1 0));
               ((2, 0), half_turn)].

(** The first sample field with every frame moved to the origin. *)
Definition relocated_field : list (Frame fvec) :=
  (λ f, mkFrame (u f) (v f) (w f) (FVec 0 0 0)) <$> field.

(** The same frame on every tetrahedron. *)
Definition constant_field : list (Frame fvec) :=
  [plain (FVec 1 1 1); plain (FVec (-1) 1 1); plain (FVec (-1) (-1) 1); plain (FVec 1 (-1) 1);
   plain (FVec 1 1 (-1)); plain (FVec (-1) 1 (-1)); plain (FVec (-1) (-1) (-1));
   plain (FVec 1 (-1) (-1))].

(** The matchings of that field: the identity for every inner face. *)
Definition constant_matchings : gmap (Z * Z) mat :=
  list_to_map
    [((0, 1), identity); ((2, 1), identity); ((2, 3), identity); ((3, 0), identity);
     ((0, 4), identity); ((1, 5), identity); ((2, 6), identity); ((3, 7), identity);
     ((4, 5), identity); ((5, 6), identity); ((6, 7), identity); ((7, 4), identity)].

(** A one-ring of a single tetrahedron at edge 0. *)
Definition single_ring : gmap Z (list Z) := {[ 0 := [0] ]}.

(** Matchings that are their own inverses. *)
Definition half_turn_matchings : gmap (Z * Z) mat :=
  list_to_map [((0, 1), half_turn); ((1, 2), identity); ((3, 2), half_turn);
               ((3, 0), identity)].

(** The boundary frames of the nearly flat surface. *)
Definition top_frames : list (Frame vec) :=
  [mkFrame (Vec 1 0 0) (Vec 0 1 0) (Vec 0 0 1) (Vec 1 1 1);
   mkFrame (Vec 1 0 0) (Vec 0 1 0) (Vec 0 0 1) (Vec (-1) 1 1);
   mkFrame (Vec 1 0 0) (Vec 0 1 0) (Vec 0 0 1) (Vec (-1) (-1) 1);
   mkFrame (Vec 1 0 0) (Vec 0 1 0) (Vec 0 0 1) (Vec 1 (-1) 1)].

End Samples.

(** * Properties *)

(** ** The exception monad and the loops *)

Lemma bind_Ok {A B : Type} (m : result A) (f : A → result B) (b : B) :
  (x ← m; f x) = Ok b ↔ ∃ a, m = Ok a ∧ f a = Ok b.
Proof.
  destruct m as [a|e]; cbn; split.
  - intros Hf. by exists a.
  - by intros (a' & [= <-] & Hf).
  - discriminate.
  - by intros (a' & [=] & _).
Qed.

Lemma bind_Raise {A B : Type} (m : result A) (f : A → result B) (e : exn) :
  (x ← m; f x) = Raise e ↔ m = Raise e ∨ ∃ a, m = Ok a ∧ f a = Raise e.
Proof.
  destruct m as [a|e']; cbn; split.
  - intros Hf. right. by exists a.
  - intros [[=]|(a' & [= <-] & Hf)]. done.
  - intros [= <-]. by left.
  - intros [[= <-]|(a' & [=] & _)]. done.
Qed.

(** Split a hypothesis [(x ← m; k) = Ok y] into its two steps. *)
Tactic Notation "bind_inv" hyp(H) "as" ident(x) ident(Hx) :=
  apply bind_Ok in H; destruct H as (x & Hx & H).

Tactic Notation "bind_inv" hyp(H) :=
  let a := fresh "a" in
  let Ha := fresh "Ha" in
  apply bind_Ok in H; destruct H as (a & Ha & H).

(** A property kept by every turn of a loop holds when the loop is left. *)
Lemma for_each_invariant {A S : Type} (P : S → Prop) (body : S → A → result S)
    (l : list A) (s s' : S) :
  P s →
  (∀ x t t', x ∈ l → P t → body t x = Ok t' → P t') →
  for_each body l s = Ok s' → P s'.
Proof.
  revert s. induction l as [|x l IH]; intros s Hs Hstep; cbn.
  - by intros [= <-].
  - intros H. bind_inv H. apply (IH a); [|intros; eapply Hstep; eauto; by right|done].
    eapply Hstep; eauto. by left.
Qed.

(** A loop whose turns all succeed succeeds. *)
Lemma for_each_total {A S : Type} (P : S → Prop) (body : S → A → result S)
    (l : list A) (s : S) :
  P s →
  (∀ x t, x ∈ l → P t → ∃ t', body t x = Ok t' ∧ P t') →
  ∃ s', for_each body l s = Ok s' ∧ P s'.
Proof.
  revert s. induction l as [|x l IH]; intros s Hs Hstep; cbn.
  - by exists s.
  - destruct (Hstep x s) as (t' & -> & Ht'); [by left|done|]. cbn.
    apply IH; [done|]. intros; apply Hstep; [by right|done].
Qed.

Lemma enumerate_from_lookup {A : Type} (l : list A) (k : Z) (i : nat) :
  enumerate_from k l !! i = (λ x, (k + Z.of_nat i, x)) <$> l !! i.
Proof.
  revert k i. induction l as [|x l IH]; intros k i; [done|].
  destruct i as [|i]; cbn.
  - do 2 f_equal. lia.
  - rewrite IH. destruct (l !! i); cbn; [|done]. do 2 f_equal. lia.
Qed.

Lemma elem_of_enumerate_from {A : Type} (l : list A) (k i : Z) (x : A) :
  (i, x) ∈ enumerate_from k l ↔ k ≤ i ∧ l !! Z.to_nat (i - k) = Some x.
Proof.
  rewrite list_elem_of_lookup. split.
  - intros (n & Hn). rewrite enumerate_from_lookup in Hn.
    destruct (l !! n) eqn:E; simplify_eq/=. split; [lia|].
    by replace (Z.to_nat (k + Z.of_nat n - k)) with n by lia.
  - intros (Hk & Hl). exists (Z.to_nat (i - k)). rewrite enumerate_from_lookup, Hl. cbn.
    do 2 f_equal. lia.
Qed.

Lemma elem_of_enumerate {A : Type} (l : list A) (i : Z) (x : A) :
  (i, x) ∈ enumerate l ↔ 0 ≤ i ∧ l !! Z.to_nat i = Some x.
Proof.
  unfold enumerate. rewrite elem_of_enumerate_from. by rewrite Z.sub_0_r.
Qed.

Lemma for_each_ext {A S : Type} (f g : S → A → result S) (l : list A) (s : S) :
  (∀ x t, x ∈ l → f t x = g t x) → for_each f l s = for_each g l s.
Proof.
  revert s. induction l as [|x l IH]; intros s Hfg; cbn; [done|].
  rewrite Hfg by by left. destruct (g s x); cbn; [|done].
  apply IH. intros; apply Hfg. by right.
Qed.

Lemma for_each_steps {A S : Type} (body : S → A → result S) (l : list A) (s s' : S) :
  for_each body l s = Ok s' → ∀ x, x ∈ l → ∃ t t', body t x = Ok t'.
Proof.
  revert s. induction l as [|y l IH]; intros s; cbn.
  - intros _ x Hx. by apply elem_of_nil in Hx.
  - intros H. bind_inv H as t Ht. intros x [->|Hx]%elem_of_cons; [by exists s, t|].
    by eapply IH.
Qed.

(** ** Indexing *)

Lemma py_get_Ok {A : Type} (l : list A) (i : Z) (x : A) :
  py_get l i = Ok x ↔
  (0 ≤ i ∧ l !! Z.to_nat i = Some x) ∨
  (i < 0 ∧ 0 ≤ i + Z.of_nat (length l) ∧ l !! Z.to_nat (i + Z.of_nat (length l)) = Some x).
Proof.
  unfold py_get. destruct (Z.ltb_spec i 0) as [Hi|Hi].
  - destruct (Z.leb_spec 0 (i + Z.of_nat (length l))) as [H0|H0]; cbn.
    + destruct (Z.ltb_spec (i + Z.of_nat (length l)) (Z.of_nat (length l))) as [H1|H1]; [|lia].
      destruct (l !! Z.to_nat (i + Z.of_nat (length l))) eqn:E; split; try naive_solver lia.
    + split; [done|]. intros [[? _]|(_ & ? & _)]; lia.
  - destruct (Z.leb_spec 0 i) as [H0|H0]; [|lia]; cbn.
    destruct (Z.ltb_spec i (Z.of_nat (length l))) as [H1|H1].
    + destruct (l !! Z.to_nat i) eqn:E; split; try naive_solver lia.
    + split; [done|]. intros [[_ E]|(? & _)]; [|lia].
      apply lookup_lt_Some in E. lia.
Qed.

Lemma py_get_nat {A : Type} (l : list A) (n : nat) :
  py_get l (Z.of_nat n) = match l !! n with Some x => Ok x | None => Raise IndexError end.
Proof.
  unfold py_get. destruct (Z.ltb_spec (Z.of_nat n) 0) as [?|_]; [lia|].
  destruct (Z.leb_spec 0 (Z.of_nat n)) as [_|?]; [|lia]. cbn. rewrite Nat2Z.id.
  destruct (Z.ltb_spec (Z.of_nat n) (Z.of_nat (length l))) as [H|H]; [done|].
  rewrite lookup_ge_None_2; [done|lia].
Qed.

Lemma py_get_elem_of {A : Type} (l : list A) (i : Z) (x : A) :
  py_get l i = Ok x → x ∈ l.
Proof.
  rewrite py_get_Ok, list_elem_of_lookup. naive_solver.
Qed.

Lemma py_get_range {A : Type} (l : list A) (i : Z) (x : A) :
  py_get l i = Ok x → - Z.of_nat (length l) ≤ i < Z.of_nat (length l).
Proof.
  rewrite py_get_Ok. intros [(? & E)|(? & ? & E)]; apply lookup_lt_Some in E; lia.
Qed.

Lemma py_get_total {A : Type} (l : list A) (i : Z) :
  - Z.of_nat (length l) ≤ i < Z.of_nat (length l) → ∃ x, py_get l i = Ok x.
Proof.
  intros Hi. destruct (Z.ltb_spec i 0) as [Hn|Hn].
  - destruct (lookup_lt_is_Some_2 l (Z.to_nat (i + Z.of_nat (length l)))) as [x Hx]; [lia|].
    exists x. apply py_get_Ok. right. split_and!; [lia|lia|done].
  - destruct (lookup_lt_is_Some_2 l (Z.to_nat i)) as [x Hx]; [lia|].
    exists x. apply py_get_Ok. by left.
Qed.

Lemma py_get_fails {A : Type} (l : list A) (i : Z) (e : exn) :
  py_get l i = Raise e → e = IndexError.
Proof.
  unfold py_get. repeat case_match; congruence.
Qed.

Lemma py_in_spec (x : Z) (l : list Z) : py_in x l = true ↔ x ∈ l.
Proof.
  unfold py_in. rewrite existsb_exists. setoid_rewrite <- list_elem_of_In.
  split.
  - intros (y & Hy & ->%Z.eqb_eq). done.
  - intros Hx. exists x. by rewrite Z.eqb_refl.
Qed.

Lemma py_in_false (x : Z) (l : list Z) : py_in x l = false ↔ x ∉ l.
Proof. rewrite <- py_in_spec. by destruct (py_in x l). Qed.

Lemma for_each_prefix {A S : Type} (P : list A → S → Prop) (body : S → A → result S)
    (l : list A) (s s' : S) :
  P [] s →
  (∀ pre x post t t', l = pre ++ x :: post → P pre t → body t x = Ok t' → P (pre ++ [x]) t') →
  for_each body l s = Ok s' → P l s'.
Proof.
  intros H0 Hstep.
  enough (G : ∀ post pre t, l = pre ++ post → P pre t →
                for_each body post t = Ok s' → P l s').
  { by apply (G l [] s). }
  induction post as [|x post IH]; intros pre t Hl Hpre; cbn.
  - intros [= <-]. by rewrite Hl, app_nil_r.
  - intros H. bind_inv H. apply (IH (pre ++ [x]) a); [by rewrite <- app_assoc| |done].
    by eapply Hstep.
Qed.

Lemma for_each_total_prefix {A S : Type} (P : list A → S → Prop) (body : S → A → result S)
    (l : list A) (s : S) :
  P [] s →
  (∀ pre x post t, l = pre ++ x :: post → P pre t → ∃ t', body t x = Ok t' ∧ P (pre ++ [x]) t') →
  ∃ s', for_each body l s = Ok s' ∧ P l s'.
Proof.
  intros H0 Hstep.
  enough (G : ∀ post pre t, l = pre ++ post → P pre t →
                ∃ s', for_each body post t = Ok s' ∧ P l s').
  { by apply (G l [] s). }
  induction post as [|x post IH]; intros pre t Hl Hpre; cbn.
  - exists t. by rewrite Hl, app_nil_r.
  - destruct (Hstep pre x post t Hl Hpre) as (t' & -> & Ht'). cbn.
    apply (IH (pre ++ [x])); [by rewrite <- app_assoc|done].
Qed.

Lemma for_each_Raise {A S : Type} (body : S → A → result S) (l : list A) (s : S) (e : exn) :
  for_each body l s = Raise e → ∃ x t, x ∈ l ∧ body t x = Raise e.
Proof.
  revert s. induction l as [|x l IH]; intros s; cbn; [done|].
  intros [H|(a & Ha & H)]%bind_Raise.
  - exists x, s. split; [by left|done].
  - destruct (IH _ H) as (y & t & Hy & Ht). exists y, t. split; [by right|done].
Qed.

Lemma enumerate_from_fst {A : Type} (l : list A) (k : Z) :
  (enumerate_from k l).*1 = seqZ k (Z.of_nat (length l)).
Proof.
  revert k. induction l as [|x l IH]; intros k; [done|].
  cbn [enumerate_from fmap list_fmap length]. rewrite Nat2Z.inj_succ, seqZ_cons by lia.
  rewrite IH. cbn. do 2 f_equal; lia.
Qed.

Lemma enumerate_split_fresh {A : Type} (l : list A) pre (i j : Z) (x y : A) post :
  enumerate l = pre ++ (i, x) :: post → (j, y) ∈ pre → j ≠ i.
Proof.
  intros Hl Hj ->.
  assert (Hnd : NoDup (enumerate l).*1).
  { unfold enumerate. rewrite enumerate_from_fst. apply NoDup_seqZ. }
  rewrite Hl, fmap_app, fmap_cons in Hnd. apply NoDup_app in Hnd as (_ & Hnd & _).
  apply (Hnd i); [|by left]. change i with (fst (i, y)). by apply list_elem_of_fmap_2.
Qed.

Lemma elem_of_py_range (n : nat) (i : Z) : i ∈ py_range n ↔ 0 ≤ i < Z.of_nat n.
Proof. unfold py_range. rewrite elem_of_seqZ. lia. Qed.

(** ** The one-ring builder *)

Section OneRingFacts.
Context {V : Type}.
Implicit Types (tet_mesh : TetMesh V) (surf_mesh : SurfMesh V).
Implicit Types (edge : Z * Z) (ring ns : list Z).

Lemma scan_Some tet_mesh edge ring ns t :
  scan tet_mesh edge ring ns = Ok (Some t) →
  t ∈ ns ∧ t ≠ (-1) ∧ (t ∉ ring) ∧ shares_edge tet_mesh edge t.
Proof.
  induction ns as [|n ns IH]; cbn; [discriminate|].
  intros H. bind_inv H.
  destruct ((n =? -1) || py_in n ring) eqn:Hskip.
  { destruct (IH H) as (? & ?). split; [by right|done]. }
  apply orb_false_iff in Hskip as [Hn%Z.eqb_neq Hr%py_in_false].
  destruct (py_in edge.1 a && py_in edge.2 a) eqn:Hshare.
  - injection H as <-. apply andb_true_iff in Hshare as [H1%py_in_spec H2%py_in_spec].
    split_and!; [by left|done|done|by exists a].
  - destruct (IH H) as (? & ?). split; [by right|done].
Qed.

Lemma scan_fails tet_mesh edge ring ns e :
  scan tet_mesh edge ring ns = Raise e → e = IndexError.
Proof.
  induction ns as [|n ns IH]; cbn; [discriminate|].
  intros [H|(a & Ha & H)]%bind_Raise; [by eapply py_get_fails|].
  repeat case_match; try done; by apply IH.
Qed.

Lemma scan_total tet_mesh edge ring ns :
  Forall (is_index (elements tet_mesh)) ns → ∃ r, scan tet_mesh edge ring ns = Ok r.
Proof.
  induction 1 as [|n ns Hn _ IH]; cbn; [by eexists|].
  destruct (py_get_total _ _ Hn) as (tet & ->). cbn.
  repeat case_match; try done. by eexists.
Qed.

(** What a finished walk has added to the ring it started from. *)
Lemma walk_result fuel tet_mesh edge ring ring' :
  walk fuel tet_mesh edge ring = Ok ring' →
  ∃ ext, ring' = ring ++ ext ∧
         (NoDup ring → NoDup ring') ∧
         Forall (λ t, t ≠ (-1) ∧ shares_edge tet_mesh edge t) ext ∧
         stopped tet_mesh edge ring'.
Proof.
  revert ring. induction fuel as [|fuel IH]; intros ring; cbn; [discriminate|].
  intros H. bind_inv H. rename a into last. bind_inv H. rename a into ns.
  bind_inv H. destruct a as [t|].
  - destruct (IH _ H) as (ext & -> & Hnd & Hext & Hstop).
    apply scan_Some in Ha1 as (_ & Ht & Hfresh & Hshare).
    exists (t :: ext). split_and!.
    + by rewrite <- app_assoc.
    + intros Hr. apply Hnd. apply NoDup_app. split_and!; [done| |apply NoDup_singleton].
      intros x Hx ->%list_elem_of_singleton. done.
    + by constructor.
    + done.
  - injection H as <-. exists []. rewrite app_nil_r. split_and!; [done|done|done|].
    by exists last, ns.
Qed.

(** Tetrahedra that index [elements] and are pairwise distinct are at most
    twice as many as [elements] is long. *)
Lemma distinct_indices_bound {A : Type} (l : list A) (ts : list Z) :
  NoDup ts → Forall (is_index l) ts → (length ts ≤ 2 * length l)%nat.
Proof.
  intros Hnd Hall.
  assert (Hsub : ts ⊆+ seqZ (- Z.of_nat (length l)) (2 * Z.of_nat (length l))).
  { apply NoDup_submseteq; [done|]. intros t Ht. rewrite Forall_forall in Hall.
    apply elem_of_seqZ. specialize (Hall t Ht). unfold is_index in Hall. lia. }
  apply submseteq_length in Hsub. rewrite length_seqZ in Hsub. lia.
Qed.

Lemma walk_fuel_enough fuel tet_mesh edge seed ext :
  NoDup (seed :: ext) → Forall (is_index (elements tet_mesh)) ext →
  (2 * length (elements tet_mesh) + 1 ≤ length ext + fuel)%nat →
  walk fuel tet_mesh edge (seed :: ext) ≠ Raise OutOfFuel.
Proof.
  revert ext. induction fuel as [|fuel IH]; intros ext Hnd Hall Hfuel.
  - apply NoDup_cons in Hnd as [_ Hnd].
    pose proof (distinct_indices_bound _ _ Hnd Hall). lia.
  - cbn. intros [H|(last & _ & H)]%bind_Raise; [by apply py_get_fails in H|].
    apply bind_Raise in H as [H|(ns & _ & H)]; [by apply py_get_fails in H|].
    apply bind_Raise in H as [H|(found & Hscan & H)]; [by apply scan_fails in H|].
    destruct found as [t|]; [|done].
    apply scan_Some in Hscan as (_ & _ & Hfresh & tet & Htet & _).
    revert H. change ((seed :: ext) ++ [t]) with (seed :: (ext ++ [t])). apply IH.
    + change (NoDup ((seed :: ext) ++ [t])). apply NoDup_app. split_and!; [done| |apply NoDup_singleton].
      intros x Hx ->%list_elem_of_singleton. done.
    + apply Forall_app. split; [done|]. constructor; [|done]. by eapply py_get_range.
    + rewrite length_app. cbn. lia.
Qed.

Lemma walk_fails tet_mesh edge seed e :
  walk (walk_fuel tet_mesh) tet_mesh edge [seed] = Raise e → e = IndexError.
Proof.
  intros H. assert (He : e ≠ OutOfFuel).
  { intros ->. revert H. apply walk_fuel_enough; [apply NoDup_singleton|done|].
    unfold walk_fuel. cbn. lia. }
  clear -H He. revert H. generalize [seed], (walk_fuel tet_mesh). intros ring fuel. revert ring.
  induction fuel as [|fuel IH]; intros ring; cbn; [congruence|].
  intros [H|(last & _ & H)]%bind_Raise; [by apply py_get_fails in H|].
  apply bind_Raise in H as [H|(ns & _ & H)]; [by apply py_get_fails in H|].
  apply bind_Raise in H as [H|(found & Hscan & H)]; [by apply scan_fails in H|].
  destruct found as [t|]; [by eapply IH|done].
Qed.

Lemma walk_in_range fuel tet_mesh edge ring e :
  Forall (Forall (λ t, is_index (elements tet_mesh) t ∧ is_index (neighbors tet_mesh) t))
         (neighbors tet_mesh) →
  ring ≠ [] → Forall (is_index (neighbors tet_mesh)) ring →
  walk fuel tet_mesh edge ring = Raise e → e = OutOfFuel.
Proof.
  intros Hneigh. revert ring.
  induction fuel as [|fuel IH]; intros ring Hne Hring; cbn; [congruence|].
  destruct (py_get_total ring (-1)) as (last & Hlast).
  { destruct ring; [done|]. cbn. lia. }
  rewrite Hlast. cbn.
  assert (Hl : is_index (neighbors tet_mesh) last).
  { rewrite Forall_forall in Hring. apply Hring. by eapply py_get_elem_of. }
  destruct (py_get_total _ _ Hl) as (ns & Hns). rewrite Hns. cbn.
  assert (Hall : Forall (λ t, is_index (elements tet_mesh) t ∧ is_index (neighbors tet_mesh) t) ns).
  { rewrite Forall_forall in Hneigh. apply Hneigh. by eapply py_get_elem_of. }
  destruct (scan_total tet_mesh edge ring ns) as (found & Hscan).
  { eapply Forall_impl; [exact Hall|]. by intros t [? _]. }
  rewrite Hscan. cbn. destruct found as [t|]; [|done].
  apply IH; [by destruct ring|]. apply Forall_app. split; [done|].
  constructor; [|done]. apply scan_Some in Hscan as (Ht & _).
  rewrite Forall_forall in Hall. by destruct (Hall t Ht).
Qed.

(** The loop of the walk always comes to an end: the builder raises
    nothing but the [IndexError] of a lookup out of range. *)
Lemma compute_onerings_fails tet_mesh surf_mesh e :
  compute_onerings tet_mesh surf_mesh = Raise e → e = IndexError.
Proof.
  intros ([ei edge] & rings & _ & H)%for_each_Raise. cbn in H.
  case_match; [done|].
  apply bind_Raise in H as [H|(seed & _ & H)]; [by apply py_get_fails in H|].
  apply bind_Raise in H as [H|(ring & _ & H)]; [by apply walk_fails in H|done].
Qed.

Lemma compute_onerings_terminates tet_mesh surf_mesh :
  compute_onerings tet_mesh surf_mesh ≠ Raise OutOfFuel.
Proof. by intros ?%compute_onerings_fails. Qed.
End OneRingFacts.

Section OneRingClaims.
Context {V : Type}.
Implicit Types (tet_mesh : TetMesh V) (surf_mesh : SurfMesh V).

(** One turn of the loop over the edges either leaves the dictionary alone
    or stores, under the index of the edge, the ring the walk ends with. *)
Lemma ring_edge_Ok tet_mesh surf_mesh one_rings ei edge one_rings' :
  ring_edge tet_mesh surf_mesh one_rings (ei, edge) = Ok one_rings' →
  (¬ internal surf_mesh edge ∧ one_rings' = one_rings) ∨
  (internal surf_mesh edge ∧
   ∃ seed ring, py_get (edge_adjacent_elements tet_mesh) ei = Ok seed ∧
                walk (walk_fuel tet_mesh) tet_mesh edge [seed] = Ok ring ∧
                one_rings' = <[ei := ring]> one_rings).
Proof.
  unfold ring_edge, internal.
  destruct (bool_decide (edge.1 ∈ vertex_map surf_mesh)) eqn:E1;
    destruct (bool_decide (edge.2 ∈ vertex_map surf_mesh)) eqn:E2; cbn [andb];
    try apply bool_decide_eq_true in E1; try apply bool_decide_eq_true in E2;
    try apply bool_decide_eq_false in E1; try apply bool_decide_eq_false in E2.
  1: { intros [= <-]. left. split; [tauto|done]. }
  all: intros H; bind_inv H; bind_inv H; injection H as <-; right;
    (split; [tauto|]); by exists a, a0.
Qed.

(** C9. Every one-ring the builder records is non-empty and begins with
    the tetrahedron recorded at its edge; no tetrahedron occurs in it
    twice; and every entry after the first is a tetrahedron other than the
    sentinel -1 that has both endpoints of the edge among its vertices. *)
Theorem one_ring_shape tet_mesh surf_mesh one_rings ei ring :
  compute_onerings tet_mesh surf_mesh = Ok one_rings →
  one_rings !! ei = Some ring →
  ∃ edge seed rest,
    (ei, edge) ∈ enumerate (edges tet_mesh) ∧
    py_get (edge_adjacent_elements tet_mesh) ei = Ok seed ∧
    ring = seed :: rest ∧
    NoDup ring ∧
    ((-1) ∉ rest) ∧
    ∀ t, t ∈ rest → shares_edge tet_mesh edge t.
Proof.
  intros Hrun. revert ei ring.
  refine (for_each_invariant
            (λ rings : gmap Z (list Z), ∀ ei ring, rings !! ei = Some ring → _)
            _ _ _ _ _ _ Hrun).
  - intros ei ring. by rewrite lookup_empty.
  - intros [ej edge] rings rings' Hin IH Hstep ei ring Hring.
    apply ring_edge_Ok in Hstep as [[_ ->]|(_ & seed & r & Hseed & Hwalk & ->)]; [by apply IH|].
    apply lookup_insert_Some in Hring as [[<- <-]|[_ Hring]]; [|by apply IH].
    apply walk_result in Hwalk as (ext & -> & Hnd & Hext & _).
    exists edge, seed, ext. split_and!; [done|done|done| | |].
    + apply Hnd, NoDup_singleton.
    + intros Hm. rewrite Forall_forall in Hext. by destruct (Hext _ Hm).
    + intros t Ht. rewrite Forall_forall in Hext. by apply Hext.
Qed.

End OneRingClaims.

(** ** The order of float64 numbers *)

Lemma SFcompare_nan (x y : spec_float) :
  SFcompare x y = None ↔ x = S754_nan ∨ y = S754_nan.
Proof.
  destruct x as [| | |[] ? ?], y as [| | |[] ? ?]; cbn; split;
    intros H; try done; try (by left); try (by right); by destruct H.
Qed.

Lemma SFcompare_refl (x : spec_float) : x ≠ S754_nan → SFcompare x x = Some Eq.
Proof.
  destruct x as [| [] | |[] m e]; cbn; try done.
  - intros _. by rewrite Z.compare_refl, Pos.compare_cont_refl.
  - intros _. by rewrite Z.compare_refl, Pos.compare_cont_refl.
Qed.

Lemma SFcompare_antisym (x y : spec_float) (c : comparison) :
  SFcompare x y = Some c → SFcompare y x = Some (CompOpp c).
Proof.
  destruct x as [| [] | |[] m e], y as [| [] | |[] m' e']; cbn; try done;
    try (by intros [= <-]).
  - intros [= <-]. f_equal. rewrite (Z.compare_antisym e e').
    destruct (e ?= e'); cbn; try done.
    change (Pos.compare_cont Eq m' m) with (Pos.compare m' m).
    change (Pos.compare_cont Eq m m') with (Pos.compare m m').
    by rewrite (Pos.compare_antisym m m').
  - intros [= <-]. f_equal. rewrite (Z.compare_antisym e e').
    destruct (e ?= e'); cbn; try done.
    change (Pos.compare_cont Eq m' m) with (Pos.compare m' m).
    change (Pos.compare_cont Eq m m') with (Pos.compare m m').
    by rewrite (Pos.compare_antisym m m').
Qed.

(** Less-or-equal followed by less-or-equal is less-or-equal, and less if
    one of the two is. *)
Lemma SFcompare_trans (x y z : spec_float) (c c' : comparison) :
  SFcompare x y = Some c → SFcompare y z = Some c' → c ≠ Gt → c' ≠ Gt →
  ∃ c'', SFcompare x z = Some c'' ∧ c'' ≠ Gt ∧ (c = Lt ∨ c' = Lt → c'' = Lt).
Proof.
  intros Hxy Hyz Hc Hc'.
  destruct x as [| [] | |[] m e], y as [| [] | |[] m' e'], z as [| [] | |[] m'' e''];
    cbn in *; try done;
    repeat match goal with H : Some _ = Some _ |- _ => injection H as <- end;
    try done;
    try (eexists; split; [reflexivity|]; split; [done|]; intros [?|?]; done).
  all: change (Pos.compare_cont Eq ?a ?b) with (Pos.compare a b) in *.
  all: destruct (Z.compare_spec e e'), (Z.compare_spec e' e''), (Z.compare_spec e e'');
    try lia; try done; subst;
    destruct (Pos.compare_spec m m'), (Pos.compare_spec m' m''), (Pos.compare_spec m m'');
    try lia; try done; cbn in *; try done;
    try (eexists; split; [reflexivity|]; split; [done|]; intros [?|?]; done).
Qed.

Lemma is_nan_Prim2SF (a : float) : is_nan a = true ↔ Prim2SF a = S754_nan.
Proof.
  unfold is_nan. rewrite FloatAxioms.eqb_spec. unfold SFeqb. split.
  - intros H. destruct (Prim2SF a) eqn:E; try done.
    all: rewrite SFcompare_refl in H by done; done.
  - by intros ->.
Qed.

Lemma is_nan_false (a : float) : is_nan a = false ↔ Prim2SF a ≠ S754_nan.
Proof. rewrite <- is_nan_Prim2SF. by destruct (is_nan a). Qed.

Lemma leb_Some (a b : float) :
  (a <=? b)%float = true ↔
  ∃ c, SFcompare (Prim2SF a) (Prim2SF b) = Some c ∧ c ≠ Gt.
Proof.
  rewrite leb_spec. unfold SFleb.
  destruct (SFcompare (Prim2SF a) (Prim2SF b)) as [[]|]; split; try done;
    try (by eexists); by intros (c & [= <-] & ?).
Qed.

Lemma ltb_Some (a b : float) :
  (a <? b)%float = true ↔ SFcompare (Prim2SF a) (Prim2SF b) = Some Lt.
Proof.
  rewrite ltb_spec. unfold SFltb.
  by destruct (SFcompare (Prim2SF a) (Prim2SF b)) as [[]|].
Qed.

Lemma leb_refl (a : float) : is_nan a = false → (a <=? a)%float = true.
Proof.
  intros H%is_nan_false. apply leb_Some. exists Eq. by rewrite SFcompare_refl.
Qed.

Lemma leb_numbers (a b : float) :
  (a <=? b)%float = true → is_nan a = false ∧ is_nan b = false.
Proof.
  intros (c & Hc & _)%leb_Some. rewrite !is_nan_false.
  split; intros E; rewrite E in Hc; [done|]. by destruct (Prim2SF a).
Qed.

Lemma ltb_leb (a b : float) : (a <? b)%float = true → (a <=? b)%float = true.
Proof. intros H%ltb_Some. apply leb_Some. by exists Lt. Qed.

Lemma ltb_not_leb (a b : float) : (a <? b)%float = true → (b <=? a)%float = false.
Proof.
  intros H%ltb_Some. apply SFcompare_antisym in H. cbn in H.
  rewrite leb_spec. unfold SFleb. by rewrite H.
Qed.

Lemma not_leb_ltb (a b : float) :
  is_nan a = false → is_nan b = false → (a <=? b)%float = false → (b <? a)%float = true.
Proof.
  intros Ha%is_nan_false Hb%is_nan_false H. apply ltb_Some.
  rewrite leb_spec in H. unfold SFleb in H.
  destruct (SFcompare (Prim2SF a) (Prim2SF b)) as [c|] eqn:E.
  - apply SFcompare_antisym in E. by destruct c.
  - apply SFcompare_nan in E. tauto.
Qed.

Lemma ltb_leb_trans (a b c : float) :
  (a <? b)%float = true → (b <=? c)%float = true → (a <? c)%float = true.
Proof.
  intros Hx%ltb_Some (y & Hy & ?)%leb_Some.
  destruct (SFcompare_trans _ _ _ _ _ Hx Hy) as (z & Hz & ? & Hlt); [done..|].
  apply ltb_Some. rewrite Hz. f_equal. apply Hlt. by left.
Qed.

Lemma leb_antisym_eqb (a b : float) :
  (a <=? b)%float = true → (b <=? a)%float = true → (a =? b)%float = true.
Proof.
  intros (x & Hx & ?)%leb_Some (y & Hy & ?)%leb_Some.
  rewrite FloatAxioms.eqb_spec. unfold SFeqb. rewrite Hx.
  apply SFcompare_antisym in Hx. rewrite Hx in Hy. injection Hy as <-.
  by destruct x.
Qed.

(** ** [argmin] *)

Lemma argmin_from_spec (args pre : list float) (best : nat) (least : float) :
  pre !! best = Some least →
  (∀ j x, pre !! j = Some x → (least <=? x)%float = true) →
  (∀ j x, (j < best)%nat → pre !! j = Some x → (least <? x)%float = true) →
  first_minimum (pre ++ args) (argmin_from best least (length pre) args).
Proof.
  revert pre best least. induction args as [|x args IH]; intros pre best least Hb Hmin Hfirst.
  - cbn. rewrite app_nil_r. exists least. split; [done|]. by right.
  - cbn [argmin_from]. rewrite cons_middle, app_assoc.
    assert (Hlen : S (length pre) = length (pre ++ [x])) by (rewrite length_app; cbn; lia).
    assert (Hleast : is_nan least = false) by (by eapply leb_numbers, Hmin).
    destruct (least <=? x)%float eqn:Hle; cbn [negb].
    + rewrite Hlen. apply IH.
      * by apply lookup_app_l_Some.
      * intros j y [Hy|[_ Hy]]%lookup_app_Some; [by eapply Hmin|].
        destruct (j - length pre)%nat; [|done]. by injection Hy as <-.
      * intros j y Hj Hy. apply lookup_lt_Some in Hb.
        rewrite lookup_app_l in Hy by lia. by eapply Hfirst.
    + destruct (is_nan x) eqn:Hnan.
      * exists x. split.
        { rewrite <- app_assoc. cbn. by rewrite list_lookup_middle. }
        left. split; [done|]. intros j y Hj Hy.
        rewrite <- app_assoc in Hy. cbn in Hy. rewrite lookup_app_l in Hy by done.
        by eapply leb_numbers, Hmin.
      * rewrite Hlen. assert (Hlt : (x <? least)%float = true) by by apply not_leb_ltb.
        apply IH.
        -- by rewrite list_lookup_middle.
        -- intros j y [Hy|[_ Hy]]%lookup_app_Some.
           ++ eapply ltb_leb, ltb_leb_trans; [done|by eapply Hmin].
           ++ destruct (j - length pre)%nat; [|done]. injection Hy as <-. by apply leb_refl.
        -- intros j y Hj Hy. rewrite lookup_app_l in Hy by done.
           eapply ltb_leb_trans; [done|by eapply Hmin].
Qed.

Lemma first_minimum_not_before (args : list float) (k k' : nat) :
  first_minimum args k → first_minimum args k' → ¬ (k < k')%nat.
Proof.
  intros (y & Hy & Hcase) (y' & Hy' & Hcase') Hlt.
  destruct Hcase' as [[Hnan' Hnum]|[_ Hfirst']].
  - destruct Hcase as [[Hnan _]|[Hmin _]].
    + specialize (Hnum _ _ Hlt Hy). congruence.
    + specialize (Hmin _ _ Hy'). apply leb_numbers in Hmin as [_ ?]. congruence.
  - specialize (Hfirst' _ _ Hlt Hy). destruct Hcase as [[Hnan _]|[Hmin _]].
    + apply ltb_leb, leb_numbers in Hfirst' as [_ ?]. congruence.
    + specialize (Hmin _ _ Hy'). apply ltb_not_leb in Hfirst'. congruence.
Qed.

Lemma first_minimum_unique (args : list float) (k k' : nat) :
  first_minimum args k → first_minimum args k' → k = k'.
Proof.
  intros H H'. pose proof (first_minimum_not_before _ _ _ H H').
  pose proof (first_minimum_not_before _ _ _ H' H). lia.
Qed.

Lemma argmin_Ok (args : list float) (k : nat) :
  argmin args = Ok k ↔ first_minimum args k.
Proof.
  assert (Hspec : ∀ x l, first_minimum (x :: l)
                           (if is_nan x then 0%nat else argmin_from 0 x 1 l)).
  { intros x l. destruct (is_nan x) eqn:Hnan.
    - exists x. split; [done|]. left. split; [done|]. intros; lia.
    - apply (argmin_from_spec l [x] 0%nat x); [done| |intros; lia].
      intros [|j] y; [|done]. intros [= <-]. by apply leb_refl. }
  destruct args as [|x args]; cbn.
  - split; [done|]. by intros (y & Hy & _).
  - split.
    + intros [= <-]. apply Hspec.
    + intros Hk. f_equal. eapply first_minimum_unique; [apply Hspec|done].
Qed.

Lemma argmin_total (args : list float) : args ≠ [] → ∃ k, argmin args = Ok k.
Proof. destruct args; [done|]. by eexists. Qed.
(** ** Exact norms *)

Lemma norm2_nonneg (x : qvec) : (0 <= norm2 x)%Q.
Proof.
  assert (Hsq : ∀ a : Q, (0 <= a * a)%Q).
  { intros [n d]. unfold Qle, Qmult. cbn. nia. }
  unfold norm2. pose proof (Hsq (qx x)). pose proof (Hsq (qy x)). pose proof (Hsq (qz x)).
  lra.
Qed.

Lemma Q2R_norm2_nonneg (x : qvec) : (0 <= Q2R (norm2 x))%R.
Proof. rewrite <- RMicromega.Q2R_0. apply Qle_Rle, norm2_nonneg. Qed.

Lemma euclidean_norm_le (x y : qvec) :
  (norm2 x <= norm2 y)%Q ↔ (euclidean_norm x <= euclidean_norm y)%R.
Proof.
  unfold euclidean_norm. split; intros H.
  - apply sqrt_le_1_alt. by apply Qle_Rle.
  - apply sqrt_le_0 in H; [by apply Rle_Qle|apply Q2R_norm2_nonneg..].
Qed.

Lemma euclidean_norm_lt (x y : qvec) :
  (norm2 x < norm2 y)%Q ↔ (euclidean_norm x < euclidean_norm y)%R.
Proof.
  unfold euclidean_norm. split; intros H.
  - apply sqrt_lt_1_alt. split; [apply Q2R_norm2_nonneg|by apply Qlt_Rlt].
  - apply sqrt_lt_0_alt in H. by apply Rlt_Qlt.
Qed.

Lemma euclidean_norm_eq (x y : qvec) :
  (norm2 x == norm2 y)%Q → euclidean_norm x = euclidean_norm y.
Proof. intros H. unfold euclidean_norm. f_equal. by apply Qeq_eqR. Qed.

(** ** The matcher *)

Lemma dot_fm_transpose (R : mat) (x : fvec) : dot_fm x (transpose R) = fapply R x.
Proof. by destruct R as [[] [] []]. Qed.

(** The score the loop appends is the float64 score. *)
Lemma norm_residual (fi fj : Frame fvec) (R : mat) :
  norm (residual fi fj R) = float64_score fi fj R.
Proof. unfold residual, float64_score, norm. by rewrite !dot_fm_transpose. Qed.

Section MatcherFacts.
Context {V : Type}.
Variable chiral_symmetries : list mat.
Implicit Types (tet_mesh : TetMesh V) (frames : list (Frame fvec)).
Implicit Types (pair : Z * Z) (matchings : gmap (Z * Z) mat).

Lemma score_loop frames pair fi fj (cs : list mat) (acc : list float) :
  py_get frames pair.1 = Ok fi → py_get frames pair.2 = Ok fj →
  for_each (score frames pair) cs acc = Ok (acc ++ ((λ R, norm (residual fi fj R)) <$> cs)).
Proof.
  intros Hi Hj. revert acc. induction cs as [|R cs IH]; intros acc; cbn [for_each fmap list_fmap].
  - by rewrite app_nil_r.
  - assert (Hs : score frames pair acc R = Ok (acc ++ [norm (residual fi fj R)])).
    { unfold score. by rewrite Hi, Hj. }
    rewrite Hs. cbn [mbind result_bind]. rewrite IH. by rewrite <- app_assoc.
Qed.

Lemma score_loop_frames frames pair (cs : list mat) (acc args : list float) :
  cs ≠ [] → for_each (score frames pair) cs acc = Ok args →
  ∃ fi fj, py_get frames pair.1 = Ok fi ∧ py_get frames pair.2 = Ok fj.
Proof.
  destruct cs as [|R cs]; [done|]. intros _ H. cbn [for_each] in H.
  apply bind_Ok in H as (a & Ha & _). unfold score in Ha.
  destruct (py_get frames pair.1) as [fi|]; cbn in Ha; [|done].
  destruct (py_get frames pair.2) as [fj|]; cbn in Ha; [|done]. by exists fi, fj.
Qed.

Lemma best_match_Ok frames pair R :
  best_match chiral_symmetries frames pair = Ok R ↔
  ∃ fi fj k, py_get frames pair.1 = Ok fi ∧ py_get frames pair.2 = Ok fj ∧
             chiral_symmetries !! k = Some R ∧ first_minimum (scores chiral_symmetries fi fj) k.
Proof.
  unfold best_match. split.
  - intros H. bind_inv H. rename a into args. bind_inv H. rename a into k.
    destruct (decide (chiral_symmetries = [])) as [Hcs|Hcs].
    { rewrite Hcs in Ha. injection Ha as <-. done. }
    destruct (score_loop_frames _ _ _ _ _ Hcs Ha) as (fi & fj & Hi & Hj).
    rewrite (score_loop _ _ fi fj) in Ha by done. injection Ha as <-.
    rewrite py_get_nat in H. destruct (_ !! k) eqn:E in H; [|done]. injection H as ->.
    exists fi, fj, k. split_and!; [done|done|done|]. by apply argmin_Ok.
  - intros (fi & fj & k & Hi & Hj & Hk & Hmin).
    rewrite (score_loop _ _ fi fj) by done. cbn [mbind result_bind app].
    apply argmin_Ok in Hmin. unfold scores in Hmin. rewrite Hmin. cbn [mbind result_bind].
    by rewrite py_get_nat, Hk.
Qed.

Lemma best_match_total frames pair :
  chiral_symmetries ≠ [] → is_index frames pair.1 → is_index frames pair.2 →
  ∃ R, best_match chiral_symmetries frames pair = Ok R.
Proof.
  intros Hne Hi Hj.
  destruct (py_get_total _ _ Hi) as (fi & Hfi), (py_get_total _ _ Hj) as (fj & Hfj).
  destruct (argmin_total (scores chiral_symmetries fi fj)) as (k & Hk).
  { unfold scores. by destruct chiral_symmetries. }
  pose proof Hk as Hk'. apply argmin_Ok in Hk' as (y & Hy & _).
  unfold scores in Hy. rewrite list_lookup_fmap in Hy.
  destruct (chiral_symmetries !! k) as [R|] eqn:E; [|done].
  exists R. apply best_match_Ok. exists fi, fj, k. split_and!; [done|done|done|].
  by apply argmin_Ok.
Qed.

Lemma match_pair_Ok frames matchings pair matchings' :
  match_pair chiral_symmetries frames matchings pair = Ok matchings' ↔
  (¬ interior pair ∧ matchings' = matchings) ∨
  (interior pair ∧ ∃ R, best_match chiral_symmetries frames pair = Ok R ∧
                        matchings' = <[pair := R]> matchings).
Proof.
  unfold match_pair, interior.
  destruct (Z.eqb_spec pair.1 (-1)) as [H1|H1]; cbn [orb].
  { split; [intros [= <-]; left; split; [tauto|done]|].
    intros [[_ ->]|[[? _] _]]; done. }
  destruct (Z.eqb_spec pair.2 (-1)) as [H2|H2].
  { split; [intros [= <-]; left; split; [tauto|done]|].
    intros [[_ ->]|[[_ ?] _]]; done. }
  split.
  - intros H. bind_inv H. injection H as <-. right. split; [done|]. by exists a.
  - intros [[? _]|(_ & R & -> & ->)]; [tauto|done].
Qed.

(** What the dictionary of matchings holds when the loop is left. *)
Lemma compute_matchings_Ok tet_mesh frames matchings :
  compute_matchings chiral_symmetries tet_mesh frames = Ok matchings →
  (∀ pair, pair ∈ adjacent_elements tet_mesh → interior pair →
     ∃ R, matchings !! pair = Some R ∧ best_match chiral_symmetries frames pair = Ok R) ∧
  (∀ pair R, matchings !! pair = Some R →
     pair ∈ adjacent_elements tet_mesh ∧ interior pair ∧
     best_match chiral_symmetries frames pair = Ok R).
Proof.
  intros Hrun. split.
  - refine (for_each_prefix
              (λ pre (m : gmap (Z * Z) mat), ∀ pair, pair ∈ pre → interior pair →
                 ∃ R, m !! pair = Some R ∧ best_match chiral_symmetries frames pair = Ok R)
              _ _ _ _ _ _ Hrun).
    { intros pair Hin. by apply elem_of_nil in Hin. }
    intros pre p post m m' _ IH Hstep pair Hin Hint.
    apply match_pair_Ok in Hstep as [[Hp ->]|(_ & R & HR & ->)].
    + apply elem_of_app in Hin as [Hin|Hin%list_elem_of_singleton]; [by apply IH|by subst].
    + destruct (decide (p = pair)) as [->|Hne].
      * exists R. by rewrite lookup_insert_eq.
      * rewrite lookup_insert_ne by done.
        apply elem_of_app in Hin as [Hin|Hin%list_elem_of_singleton]; [by apply IH|by subst].
  - refine (for_each_invariant
              (λ m : gmap (Z * Z) mat, ∀ pair R, m !! pair = Some R → _) _ _ _ _ _ _ Hrun).
    { intros pair R. by rewrite lookup_empty. }
    intros p m m' Hin IH Hstep pair R Hlook.
    apply match_pair_Ok in Hstep as [[Hp ->]|(Hint & R' & HR & ->)]; [by apply IH|].
    apply lookup_insert_Some in Hlook as [[<- <-]|[_ Hlook]]; [done|by apply IH].
Qed.

Lemma compute_matchings_total tet_mesh frames :
  (∀ pair, pair ∈ adjacent_elements tet_mesh → interior pair →
     ∃ R, best_match chiral_symmetries frames pair = Ok R) →
  ∃ matchings, compute_matchings chiral_symmetries tet_mesh frames = Ok matchings.
Proof.
  intros Hall.
  destruct (for_each_total (λ _, True) (match_pair chiral_symmetries frames)
              (adjacent_elements tet_mesh) ∅) as (m & Hm & _); [done| |by exists m].
  intros pair m Hin _. destruct (decide (interior pair)) as [Hint|Hint].
  - destruct (Hall _ Hin Hint) as (R & HR). exists (<[pair := R]> m). split; [|done].
    apply match_pair_Ok. right. split; [done|]. by exists R.
  - exists m. split; [|done]. apply match_pair_Ok. by left.
Qed.
End MatcherFacts.

(** What [first_minimum] says of the scores of the candidates. *)
Lemma first_minimum_scores (cs : list mat) (fi fj : Frame fvec) (k : nat) (R : mat) :
  cs !! k = Some R → first_minimum (scores cs fi fj) k →
  (is_nan (float64_score fi fj R) = true ∧
   ∀ k' R', (k' < k)%nat → cs !! k' = Some R' → is_nan (float64_score fi fj R') = false) ∨
  ((∀ k' R', cs !! k' = Some R' →
      (float64_score fi fj R <=? float64_score fi fj R')%float = true) ∧
   (∀ k' R', (k' < k)%nat → cs !! k' = Some R' →
      (float64_score fi fj R <? float64_score fi fj R')%float = true)).
Proof.
  intros Hk (y & Hy & Hcase). unfold scores in *.
  rewrite list_lookup_fmap, Hk in Hy. injection Hy as <-.
  rewrite norm_residual in Hcase.
  destruct Hcase as [[Hnan Hnum]|[Hmin Hfirst]]; [left|right]; split.
  - done.
  - intros k' R' Hlt Hk'. rewrite <- norm_residual. apply (Hnum k'); [done|].
    by rewrite list_lookup_fmap, Hk'.
  - intros k' R' Hk'. rewrite <- (norm_residual fi fj R'). apply (Hmin k').
    by rewrite list_lookup_fmap, Hk'.
  - intros k' R' Hlt Hk'. rewrite <- (norm_residual fi fj R'). apply (Hfirst k'); [done|].
    by rewrite list_lookup_fmap, Hk'.
Qed.

(** ** The symmetry group *)

Lemma cube_rotations_all (P : mat → Prop) :
  Forall P cube_rotations_table → ∀ R, R ∈ cube_rotations → P R.
Proof.
  intros H R HR. rewrite Forall_forall in H. by apply H.
Qed.

Lemma cube_rotations_length : length cube_rotations = 24%nat.
Proof. reflexivity. Qed.

Lemma cube_rotations_transpose (R : mat) : R ∈ cube_rotations → transpose R ∈ cube_rotations.
Proof.
  revert R. apply (cube_rotations_all (λ R, transpose R ∈ cube_rotations)).
  repeat (constructor; [apply list_elem_of_In; vm_compute; tauto|]). constructor.
Qed.

Lemma cube_rotations_inv (R : mat) : R ∈ cube_rotations → inv R = Ok (transpose R).
Proof.
  revert R. apply (cube_rotations_all (λ R, inv R = Ok (transpose R))).
  repeat (constructor; [reflexivity|]). constructor.
Qed.

(** A rotation of the group keeps the length of a vector, so the exact
    norm of the combined residual of [R] for (i, j) is that of the transpose
    of [R] for (j, i). *)
Lemma exact_score_transpose (R : mat) (fi fj : Frame qvec) :
  R ∈ cube_rotations →
  (norm2 (combined_residual fi fj R) == norm2 (combined_residual fj fi (transpose R)))%Q.
Proof.
  intros HR. revert fi fj. revert R HR.
  apply (cube_rotations_all (λ R, ∀ fi fj,
    (norm2 (combined_residual fi fj R) == norm2 (combined_residual fj fi (transpose R)))%Q)).
  repeat (constructor;
    [intros [[] [] [] ?] [[] [] [] ?];
     unfold norm2, combined_residual, qadd, qsub, qapply, qdot; cbn; ring|]).
  constructor.
Qed.

Lemma ordered_as_exact_spec (cs : list mat) (fi fj : Frame fvec) :
  ordered_as_exact cs fi fj = true →
  ∃ qi qj, exact_frame fi = Some qi ∧ exact_frame fj = Some qj ∧
    ∀ R R', R ∈ cs → R' ∈ cs →
      (float64_score fi fj R <=? float64_score fi fj R')%float = true ↔
      (norm2 (combined_residual qi qj R) <= norm2 (combined_residual qi qj R'))%Q.
Proof.
  unfold ordered_as_exact.
  destruct (exact_frame fi) as [qi|]; [|done]. destruct (exact_frame fj) as [qj|]; [|done].
  intros H. exists qi, qj. split; [done|]. split; [done|].
  intros R R' HR HR'. rewrite forallb_forall in H.
  apply list_elem_of_In, H in HR. rewrite forallb_forall in HR.
  apply list_elem_of_In, HR, Bool.eqb_prop in HR'. rewrite HR'. apply Qle_bool_iff.
Qed.

(** When the float64 scores compare as the exact norms do, the element
    the matcher settles on has the least exact norm. *)
Lemma best_match_exact_least (cs : list mat) (frames : list (Frame fvec)) (pair : Z * Z)
    (R : mat) (fi fj : Frame fvec) (qi qj : Frame qvec) :
  best_match cs frames pair = Ok R →
  py_get frames pair.1 = Ok fi → py_get frames pair.2 = Ok fj →
  exact_frame fi = Some qi → exact_frame fj = Some qj →
  ordered_as_exact cs fi fj = true →
  R ∈ cs ∧
  ∀ R', R' ∈ cs →
    (float64_score fi fj R <=? float64_score fi fj R')%float = true ∧
    (norm2 (combined_residual qi qj R) <= norm2 (combined_residual qi qj R'))%Q.
Proof.
  intros (fi' & fj' & k & Hi & Hj & Hk & Hmin)%best_match_Ok Hfi Hfj Hqi Hqj Hord.
  rewrite Hfi in Hi. rewrite Hfj in Hj. injection Hi as <-. injection Hj as <-.
  apply ordered_as_exact_spec in Hord as (qi' & qj' & Hqi' & Hqj' & Hord).
  rewrite Hqi in Hqi'. rewrite Hqj in Hqj'. injection Hqi' as <-. injection Hqj' as <-.
  assert (HR : R ∈ cs) by by eapply list_elem_of_lookup_2.
  split; [done|]. intros R' HR'.
  assert (Hle : (float64_score fi fj R <=? float64_score fi fj R')%float = true).
  { destruct (first_minimum_scores _ _ _ _ _ Hk Hmin) as [[Hnan _]|[Hle _]].
    - assert (Hrefl : (float64_score fi fj R <=? float64_score fi fj R)%float = true).
      { apply Hord; [done..|]. apply Qle_refl. }
      apply leb_numbers in Hrefl as [? _]. congruence.
    - apply list_elem_of_lookup in HR' as (k' & Hk'). by eapply Hle. }
  split; [done|]. by apply Hord.
Qed.

(** ** The claims on the matcher *)

Section MatcherClaims.
Context {V : Type}.
Variable chiral_symmetries : list mat.
Implicit Types (tet_mesh : TetMesh V) (frames : list (Frame fvec)).

(** C2, as the code has it.  For an adjacent pair (i, j) without the
    sentinel, the matcher stores the element R of the list whose float64
    score is the least: no element has a score below it, and every element
    before it in the list has a score above it.  A score that is not a
    number counts as the least one: if there is one, the first element
    with such a score is stored. *)
Theorem matcher_assigns_first_least_float64_score tet_mesh frames i j :
  chiral_symmetries ≠ [] →
  (∀ pair, pair ∈ adjacent_elements tet_mesh → interior pair →
     is_index frames pair.1 ∧ is_index frames pair.2) →
  (i, j) ∈ adjacent_elements tet_mesh → i ≠ -1 → j ≠ -1 →
  ∃ matchings fi fj k R,
    compute_matchings chiral_symmetries tet_mesh frames = Ok matchings ∧
    py_get frames i = Ok fi ∧ py_get frames j = Ok fj ∧
    matchings !! (i, j) = Some R ∧
    chiral_symmetries !! k = Some R ∧
    ((is_nan (float64_score fi fj R) = true ∧
      ∀ k' R', (k' < k)%nat → chiral_symmetries !! k' = Some R' →
        is_nan (float64_score fi fj R') = false) ∨
     ((∀ k' R', chiral_symmetries !! k' = Some R' →
         (float64_score fi fj R <=? float64_score fi fj R')%float = true) ∧
      (∀ k' R', (k' < k)%nat → chiral_symmetries !! k' = Some R' →
         (float64_score fi fj R <? float64_score fi fj R')%float = true))).
Proof.
  intros Hne Hrange Hin Hi Hj.
  destruct (compute_matchings_total chiral_symmetries tet_mesh frames) as (m & Hm).
  { intros pair Hp Hint. destruct (Hrange _ Hp Hint). by apply best_match_total. }
  destruct (compute_matchings_Ok _ _ _ _ Hm) as [Hall _].
  destruct (Hall (i, j) Hin) as (R & HR & Hbest); [done|].
  apply best_match_Ok in Hbest as (fi & fj & k & Hfi & Hfj & Hk & Hmin).
  exists m, fi, fj, k, R. split_and!; try done.
  by apply first_minimum_scores.
Qed.

(** C10. Every stored matching is an entry of the list of symmetry
    elements, taken from it by position, and the dictionary has a key only
    for a pair of [adjacent_elements] neither entry of which is -1. *)
Theorem matchings_come_from_the_list tet_mesh frames matchings a b R :
  compute_matchings chiral_symmetries tet_mesh frames = Ok matchings →
  matchings !! (a, b) = Some R →
  (∃ k, (k < length chiral_symmetries)%nat ∧ chiral_symmetries !! k = Some R) ∧
  (a, b) ∈ adjacent_elements tet_mesh ∧ a ≠ -1 ∧ b ≠ -1.
Proof.
  intros Hm HR. destruct (compute_matchings_Ok _ _ _ _ Hm) as [_ Hkeys].
  destruct (Hkeys _ _ HR) as (Hin & [Ha Hb] & Hbest).
  apply best_match_Ok in Hbest as (fi & fj & k & _ & _ & Hk & _).
  split_and!; try done. exists k. split; [|done]. by eapply lookup_lt_Some.
Qed.

End MatcherClaims.

(** ** The singularity classifier *)

Section ClassifierFacts.
Context {V : Type}.
Variable chiral_symmetries : list mat.
Implicit Types (tet_mesh : TetMesh V) (frames : list (Frame fvec)).
Implicit Types (matchings : gmap (Z * Z) mat) (one_rings : gmap Z (list Z)).

(** One step of the walk when only the reversed pair is stored: the
    accumulator is multiplied by the stored matrix as it is. *)
Lemma turn_reversed matchings one_ring type i a b M :
  py_get one_ring ((i + 1) `mod` Z.of_nat (length one_ring)) = Ok a →
  py_get one_ring i = Ok b →
  matchings !! (a, b) = None → matchings !! (b, a) = Some M → det M ≠ 0 →
  turn matchings one_ring type i = Ok (dot_mm type M).
Proof.
  intros Ha Hb Hab Hba Hdet. unfold turn. rewrite Ha, Hb. cbn.
  rewrite Hab. unfold dict_get. cbn. rewrite Hba. cbn.
  unfold inv. destruct (Z.eqb_spec (det M) 0) as [?|_]; [done|]. cbn.
  by rewrite Hba.
Qed.

Lemma turn_stored matchings one_ring type i a b M :
  py_get one_ring ((i + 1) `mod` Z.of_nat (length one_ring)) = Ok a →
  py_get one_ring i = Ok b →
  matchings !! (a, b) = Some M →
  turn matchings one_ring type i = Ok (dot_mm type M).
Proof.
  intros Ha Hb Hab. unfold turn. rewrite Ha, Hb. cbn.
  rewrite Hab. unfold dict_get. cbn. by rewrite Hab.
Qed.

Lemma singular_edge_true matchings one_rings ei edge :
  singular_edge matchings one_rings (ei, edge) = true ↔
  ∃ one_ring type, one_rings !! ei = Some one_ring ∧
                   holonomy matchings one_ring = Ok type ∧ type ≠ identity.
Proof.
  unfold singular_edge. cbn [fst]. destruct (one_rings !! ei) as [ring|] eqn:Hring.
  - destruct (holonomy matchings ring) as [type|e] eqn:Hhol.
    + rewrite bool_decide_eq_true. split; [intros ?; by exists ring, type|].
      intros (? & ? & [= <-] & Hh & ?). rewrite Hhol in Hh. by injection Hh as ->.
    + split; [done|]. intros (? & ? & [= <-] & Hh & _). by rewrite Hhol in Hh.
  - split; [done|]. by intros (? & ? & ? & _).
Qed.

Lemma classify_edge_Ok matchings one_rings lines ei edge lines' :
  classify_edge matchings one_rings lines (ei, edge) = Ok lines' ↔
  (∀ one_ring, one_rings !! ei = Some one_ring →
     ∃ type, holonomy matchings one_ring = Ok type) ∧
  lines' = lines ++ (if singular_edge matchings one_rings (ei, edge) then [edge] else []).
Proof.
  unfold classify_edge, singular_edge. cbn [fst].
  destruct (one_rings !! ei) as [ring|] eqn:Hring.
  - destruct (holonomy matchings ring) as [type|e] eqn:Hhol; cbn [mbind result_bind].
    + unfold array_equal. rewrite <- bool_decide_not.
      assert (Hall : ∀ r, Some ring = Some r → ∃ t, holonomy matchings r = Ok t).
      { intros r [= <-]. by exists type. }
      destruct (bool_decide (type ≠ identity)); cbn.
      * split; [by intros [= <-]|by intros [_ ->]].
      * rewrite app_nil_r. split; [by intros [= <-]|by intros [_ ->]].
    + split; [done|]. intros [Hall _]. destruct (Hall ring eq_refl) as (t & Ht). congruence.
  - cbn. rewrite app_nil_r. split; [by intros [= <-]|by intros [_ ->]].
Qed.

(** The loop over the edges appends exactly the singular edges, in order,
    and it is left normally exactly when every walk is. *)
Lemma classify_loop matchings one_rings (l : list (Z * (Z * Z))) (lines0 lines : list (Z * Z)) :
  for_each (classify_edge matchings one_rings) l lines0 = Ok lines ↔
  (∀ ei edge one_ring, (ei, edge) ∈ l → one_rings !! ei = Some one_ring →
     ∃ type, holonomy matchings one_ring = Ok type) ∧
  lines = lines0 ++ (List.filter (singular_edge matchings one_rings) l).*2.
Proof.
  revert lines0. induction l as [|[ei edge] l IH]; intros lines0.
  - cbn. rewrite app_nil_r. split.
    + intros [= <-]. split; [|done]. intros ??? Hin. by apply elem_of_nil in Hin.
    + by intros [_ ->].
  - cbn [for_each List.filter]. rewrite bind_Ok. split.
    + intros (lines1 & [Hring ->]%classify_edge_Ok & [Hall ->]%IH). split.
      * intros ej e r [[= -> ->]|Hin]%elem_of_cons Hr; [by apply Hring|by eapply Hall].
      * rewrite <- app_assoc. f_equal.
        by destruct (singular_edge matchings one_rings (ei, edge)).
    + intros [Hall ->]. eexists. split.
      * apply classify_edge_Ok. split; [|done]. intros r Hr. eapply Hall; [by left|done].
      * apply IH. split; [intros; eapply Hall; [by right|done]|].
        rewrite <- app_assoc. f_equal.
        by destruct (singular_edge matchings one_rings (ei, edge)).
Qed.

(** On a ring none of whose steps depends on how a reversed pair is
    treated, the walk of the code ends as the walk of the spec does. *)
Lemma holonomy_as_specified_off_reversed_steps matchings one_ring :
  reversed_steps_self_inverse matchings one_ring →
  holonomy matchings one_ring = holonomy_as_specified matchings one_ring.
Proof.
  intros Hself. apply for_each_ext. intros i type Hi%elem_of_py_range.
  specialize (Hself i). unfold turn, turn_as_specified.
  destruct (py_get one_ring ((i + 1) `mod` Z.of_nat (length one_ring))) as [a|]; cbn; [|done].
  destruct (py_get one_ring i) as [b|]; cbn; [|done].
  destruct (matchings !! (a, b)) as [M|] eqn:Hab; cbn.
  - unfold dict_get. by rewrite Hab.
  - unfold dict_get. destruct (matchings !! (b, a)) as [M|] eqn:Hba; [|done].
    cbn. rewrite (Hself a b M) by done. cbn. by rewrite Hba.
Qed.

(** C3, as the code has it.  What the call hands over is the table of
    the points of the mesh and a list of pairs of vertex indices: the
    edges of the edge table, in its order, that pass a test.  For every
    edge whose recorded one-ring has no step that depends on how a reversed
    pair is treated, and for every edge without a one-ring, the test is
    that of the spec: the edge has a one-ring, and the accumulator composed
    around it is not the identity. *)
Theorem listed_edges_are_singular_off_reversed_steps tet_mesh one_rings frames
    matchings lines pts :
  compute_matchings chiral_symmetries tet_mesh frames = Ok matchings →
  singular_graph chiral_symmetries tet_mesh one_rings frames = Ok (lines, pts) →
  pts = points tet_mesh ∧
  ∃ listed : Z * (Z * Z) → bool,
    lines = (List.filter listed (enumerate (edges tet_mesh))).*2 ∧
    ∀ ei edge, (ei, edge) ∈ enumerate (edges tet_mesh) →
      (∀ one_ring, one_rings !! ei = Some one_ring →
         reversed_steps_self_inverse matchings one_ring) →
      listed (ei, edge) = singular_as_specified matchings one_rings (ei, edge).
Proof.
  intros Hm H. unfold singular_graph in H. rewrite Hm in H. cbn [mbind result_bind] in H.
  bind_inv H as lines' Hloop. injection H as <- <-.
  apply classify_loop in Hloop as [_ ->]. split; [done|].
  exists (singular_edge matchings one_rings). split; [done|].
  intros ei edge _ Hself. unfold singular_edge, singular_as_specified. cbn [fst].
  destruct (one_rings !! ei) as [ring|]; [|done].
  by rewrite holonomy_as_specified_off_reversed_steps by by apply Hself.
Qed.
End ClassifierFacts.

(** ** The field initializer *)

Lemma isclose_zero (a : Q) : isclose a 0 = true ↔ (a == 0)%Q.
Proof.
  unfold isclose, rel_tol, abs_tol. rewrite Qle_bool_iff.
  assert (Habs : (Qabs (a - 0) == Qabs a)%Q) by (apply Qabs_wd; ring).
  assert (Hnn := Qabs_nonneg a).
  assert (Hmax : (Qmax (Qabs a) (Qabs 0) == Qabs a)%Q) by (by apply Q.max_l).
  assert (Hrel : (0 <= (1 # 1000000000) * Qabs a)%Q) by (by apply Qmult_le_0_compat).
  assert (Hmax' : (Qmax ((1 # 1000000000) * Qabs a) 0 == (1 # 1000000000) * Qabs a)%Q)
    by (by apply Q.max_l).
  rewrite Habs, Hmax, Hmax'. split.
  - intros Hle. assert (Hz : (Qabs a <= 0)%Q) by lra.
    apply Qabs_Qle_condition in Hz. lra.
  - intros ->. by vm_compute.
Qed.

Lemma isclose_zero_Qeq_bool (a : Q) : isclose a 0 = Qeq_bool a 0.
Proof.
  apply Bool.eq_true_iff_eq. by rewrite isclose_zero, Qeq_bool_iff.
Qed.

Section InitializerClaims.
Context {V : Type}.
Variable tet_centroid : TetMesh V → Z → result V.
Variable kdtree_query : list V → V → Z.
Implicit Types (tet_mesh : TetMesh V) (surf_mesh : SurfMesh V).
Implicit Types (boundary_frames frames : list (Frame V)).

(** What one turn of the loop over the surface faces does: the face is
    passed over when both curvatures at its first vertex are exactly zero,
    and gives one frame otherwise. *)
Lemma boundary_face_Ok tet_mesh surf_mesh boundary_frames fi surf_face boundary_frames' :
  boundary_face tet_centroid tet_mesh surf_mesh boundary_frames (fi, surf_face)
    = Ok boundary_frames' →
  ∃ a ka,
    py_get surf_face 0 = Ok a ∧ py_get (k1 surf_mesh) a = Ok ka ∧
    (((ka == 0)%Q ∧ ∃ kb, py_get (k2 surf_mesh) a = Ok kb ∧ (kb == 0)%Q ∧
                          boundary_frames' = boundary_frames) ∨
     ((¬ (ka == 0)%Q ∨ ∃ kb, py_get (k2 surf_mesh) a = Ok kb ∧ ¬ (kb == 0)%Q) ∧
      ∃ d1 d2 n c,
        py_get (pdir1 surf_mesh) a = Ok d1 ∧ py_get (pdir2 surf_mesh) a = Ok d2 ∧
        py_get (vertex_normals surf_mesh) a = Ok n ∧
        boundary_frames' = boundary_frames ++ [mkFrame d1 d2 n c])).
Proof.
  unfold boundary_face. intros H.
  bind_inv H as vfi Hvfi. bind_inv H as pair Hpair. bind_inv H as tet Htet.
  bind_inv H as flat Hflat.
  bind_inv Hflat as a Ha. bind_inv Hflat as ka Hka.
  exists a, ka. split; [done|]. split; [done|].
  assert (Hframe : flat = false → ∃ d1 d2 n c,
            py_get (pdir1 surf_mesh) a = Ok d1 ∧ py_get (pdir2 surf_mesh) a = Ok d2 ∧
            py_get (vertex_normals surf_mesh) a = Ok n ∧
            boundary_frames' = boundary_frames ++ [mkFrame d1 d2 n c]).
  { intros ->.
    bind_inv H as a' Ha'. rewrite Ha in Ha'. injection Ha' as <-.
    bind_inv H as d1 Hd1. bind_inv H as d2 Hd2. bind_inv H as n Hn. bind_inv H as c Hc.
    injection H as <-. by exists d1, d2, n, c. }
  destruct (isclose ka 0) eqn:Hclose.
  - apply isclose_zero in Hclose. bind_inv Hflat as kb Hkb. injection Hflat as <-.
    destruct (isclose kb 0) eqn:Hclose'.
    + apply isclose_zero in Hclose'. injection H as <-. left. split; [done|]. by exists kb.
    + right. split; [|by apply Hframe].
      right. exists kb. split; [done|]. rewrite <- isclose_zero. congruence.
  - injection Hflat as <-. right. split; [|by apply Hframe].
    left. rewrite <- isclose_zero. congruence.
Qed.

Lemma boundary_face_inv tet_mesh surf_mesh boundary_frames fi surf_face boundary_frames' :
  boundary_face tet_centroid tet_mesh surf_mesh boundary_frames (fi, surf_face)
    = Ok boundary_frames' →
  face_resolved tet_mesh surf_mesh fi ∧
  ((flat_face surf_mesh surf_face = true ∧ boundary_frames' = boundary_frames) ∨
   (flat_face surf_mesh surf_face = false ∧
    ∃ frame, frame_of_face tet_centroid tet_mesh surf_mesh (fi, surf_face) frame ∧
             boundary_frames' = boundary_frames ++ [frame])).
Proof.
  unfold boundary_face. intros H.
  bind_inv H as vfi Hvfi. bind_inv H as pair Hpair. bind_inv H as tet Htet.
  bind_inv H as flat Hflat.
  unfold dict_get in Hvfi. destruct (face_map_inv surf_mesh !! fi) as [x|] eqn:Hmap; [|done].
  injection Hvfi as ->.
  split; [by exists vfi, pair, tet|].
  bind_inv Hflat as a Ha. bind_inv Hflat as ka Hka.
  assert (Hff : flat_face surf_mesh surf_face = flat).
  { unfold flat_face. rewrite Ha, Hka. rewrite isclose_zero_Qeq_bool in Hflat.
    destruct (Qeq_bool ka 0).
    - bind_inv Hflat as kb Hkb. injection Hflat as <-.
      by rewrite Hkb, isclose_zero_Qeq_bool.
    - injection Hflat as <-. by destruct (py_get (k2 surf_mesh) a). }
  rewrite Hff. destruct flat.
  - left. by injection H as <-.
  - right. split; [done|].
    bind_inv H as a' Ha'. rewrite Ha in Ha'. injection Ha' as <-.
    bind_inv H as d1 Hd1. bind_inv H as d2 Hd2. bind_inv H as n Hn. bind_inv H as c Hc.
    injection H as <-. exists (mkFrame d1 d2 n c). split; [|done].
    by exists a, vfi, pair.
Qed.

Lemma collect_boundary_frames_Ok tet_mesh surf_mesh boundary_frames :
  collect_boundary_frames tet_centroid tet_mesh surf_mesh = Ok boundary_frames →
  (∀ fi surf_face, (fi, surf_face) ∈ enumerate (faces surf_mesh) →
     face_resolved tet_mesh surf_mesh fi) ∧
  Forall2 (frame_of_face tet_centroid tet_mesh surf_mesh)
    (List.filter (λ f, negb (flat_face surf_mesh f.2)) (enumerate (faces surf_mesh)))
    boundary_frames.
Proof.
  unfold collect_boundary_frames.
  apply (for_each_prefix
    (λ (pre : list (Z * list Z)) (bf : list (Frame V)),
       (∀ fi surf_face, (fi, surf_face) ∈ pre → face_resolved tet_mesh surf_mesh fi) ∧
       Forall2 (frame_of_face tet_centroid tet_mesh surf_mesh)
         (List.filter (λ f, negb (flat_face surf_mesh f.2)) pre) bf)).
  - split; [|constructor]. intros fi face Hin. by apply elem_of_nil in Hin.
  - intros pre [fi face] post bf bf' _ [Hres Hall] Hstep.
    apply boundary_face_inv in Hstep as [Hface Hcase]. split.
    + intros fj face' [Hin|Hin%list_elem_of_singleton]%elem_of_app; [by eapply Hres|].
      by injection Hin as -> ->.
    + rewrite List.filter_app. cbn.
      destruct Hcase as [[-> ->]|(-> & frame & Hframe & ->)]; cbn.
      * by rewrite app_nil_r.
      * apply Forall2_app; [done|]. by constructor.
Qed.


Lemma propagate_Ok tet_mesh boundary_frames tree frames ti tet frames' :
  propagate tet_centroid kdtree_query tet_mesh boundary_frames tree frames (ti, tet)
    = Ok frames' →
  ∃ c nearest,
    tet_centroid tet_mesh ti = Ok c ∧
    py_get boundary_frames (kdtree_query tree c) = Ok nearest ∧
    frames' = frames ++ [mkFrame (u nearest) (v nearest) (w nearest) c].
Proof.
  unfold propagate. intros H. bind_inv H as c Hc.
  bind_inv H as fu Hu. bind_inv H as fv Hv. bind_inv H as fw Hw.
  injection H as <-. rewrite Hu in Hv, Hw. injection Hv as <-. injection Hw as <-.
  by exists c, fu.
Qed.

(** C8. When the initializer returns, it returns one frame for each
    tetrahedron, in the order of the element table; the frame of a
    tetrahedron is located at its centroid, and its u, v, w are those of
    the boundary frame at the position the index query gives for that
    centroid. *)
Theorem every_tet_gets_nearest_boundary_frame tet_mesh surf_mesh frames :
  init_framefield tet_centroid kdtree_query tet_mesh surf_mesh = Ok frames →
  ∃ boundary_frames,
    collect_boundary_frames tet_centroid tet_mesh surf_mesh = Ok boundary_frames ∧
    boundary_frames ≠ [] ∧
    length frames = length (elements tet_mesh) ∧
    ∀ (ti : nat) tet, elements tet_mesh !! ti = Some tet →
      ∃ c nearest,
        tet_centroid tet_mesh (Z.of_nat ti) = Ok c ∧
        py_get boundary_frames (kdtree_query (location <$> boundary_frames) c) = Ok nearest ∧
        frames !! ti = Some (mkFrame (u nearest) (v nearest) (w nearest) c).
Proof.
  unfold init_framefield. intros H. bind_inv H as bf Hbf. bind_inv H as tree Htree.
  exists bf. split; [done|].
  assert (Hne : bf ≠ [] ∧ tree = location <$> bf).
  { destruct bf; [done|]. cbn in Htree. by injection Htree as <-. }
  destruct Hne as [Hne ->]. split; [done|].
  enough (Hloop : length frames = length (enumerate (elements tet_mesh)) ∧
            ∀ n ti tet, enumerate (elements tet_mesh) !! n = Some (ti, tet) →
              ∃ c nearest,
                tet_centroid tet_mesh ti = Ok c ∧
                py_get bf (kdtree_query (location <$> bf) c) = Ok nearest ∧
                frames !! n = Some (mkFrame (u nearest) (v nearest) (w nearest) c)).
  { destruct Hloop as [Hlen Hall]. split.
    - rewrite Hlen. unfold enumerate.
      rewrite <- (length_fmap fst), enumerate_from_fst, length_seqZ. lia.
    - intros ti tet Htet. apply (Hall ti (Z.of_nat ti) tet).
      unfold enumerate. rewrite enumerate_from_lookup, Htet. cbn. do 2 f_equal. }
  revert H.
  apply (for_each_prefix
    (λ (pre : list (Z * list Z)) (fs : list (Frame V)),
       length fs = length pre ∧
       ∀ n ti tet, pre !! n = Some (ti, tet) →
         ∃ c nearest,
           tet_centroid tet_mesh ti = Ok c ∧
           py_get bf (kdtree_query (location <$> bf) c) = Ok nearest ∧
           fs !! n = Some (mkFrame (u nearest) (v nearest) (w nearest) c))).
  - split; [done|]. intros n ti tet Hn. by rewrite lookup_nil in Hn.
  - intros pre [ti tet] post fs fs' _ [Hlen Hall] Hstep.
    apply propagate_Ok in Hstep as (c & nearest & Hc & Hnear & ->).
    split; [rewrite !length_app; cbn; lia|].
    intros n tj tet' [Hn|[Hge Hn]]%lookup_app_Some.
    + destruct (Hall _ _ _ Hn) as (c' & nearest' & ? & ? & Hfs).
      exists c', nearest'. split_and!; [done|done|]. by apply lookup_app_l_Some.
    + destruct (n - length pre)%nat eqn:E; [|done]. injection Hn as <- <-.
      exists c, nearest. split_and!; [done|done|].
      replace n with (length fs) by lia. by rewrite list_lookup_middle.
Qed.
End InitializerClaims.

(** ** Independence of the order of the list of symmetry elements *)

Section OrderFree.
Context {V : Type}.
Variable chiral_symmetries : list mat.
Hypothesis chiral_symmetries_are_the_rotations :
  Permutation chiral_symmetries cube_rotations.

Lemma elem_of_chiral_symmetries (R : mat) :
  R ∈ chiral_symmetries ↔ R ∈ cube_rotations.
Proof. by rewrite chiral_symmetries_are_the_rotations. Qed.

Lemma chiral_symmetries_nonempty : chiral_symmetries ≠ [].
Proof.
  intros E. apply Permutation_length in chiral_symmetries_are_the_rotations.
  by rewrite E in chiral_symmetries_are_the_rotations.
Qed.

(** A rotation that alone has the least score is chosen whatever the order. *)
Lemma best_match_unique_least (frames : list (Frame fvec)) (pair : Z * Z)
    (fi fj : Frame fvec) (R : mat) :
  py_get frames pair.1 = Ok fi → py_get frames pair.2 = Ok fj →
  R ∈ cube_rotations → unique_least fi fj R = true →
  best_match chiral_symmetries frames pair = Ok R.
Proof.
  intros Hi Hj HR Huniq.
  destruct (best_match_total chiral_symmetries frames pair) as (R0 & HR0).
  { apply chiral_symmetries_nonempty. }
  { by eapply py_get_range. }
  { by eapply py_get_range. }
  rewrite HR0. f_equal.
  apply best_match_Ok in HR0 as (fi' & fj' & k & Hi' & Hj' & Hk & Hmin).
  rewrite Hi in Hi'. rewrite Hj in Hj'. injection Hi' as <-. injection Hj' as <-.
  apply elem_of_chiral_symmetries, list_elem_of_lookup in HR as (k' & Hk').
  unfold unique_least in Huniq. rewrite forallb_forall in Huniq.
  specialize (Huniq R0). rewrite <- list_elem_of_In in Huniq.
  assert (HR0 : R0 ∈ cube_rotations).
  { apply elem_of_chiral_symmetries. by eapply list_elem_of_lookup_2. }
  apply Huniq, orb_true_iff in HR0 as [HR0|HR0].
  { by apply bool_decide_eq_true in HR0. }
  rewrite !norm_residual in HR0. exfalso.
  destruct (first_minimum_scores _ _ _ _ _ Hk Hmin) as [[Hnan _]|[Hle _]].
  - apply ltb_leb, leb_numbers in HR0 as [_ ?]. congruence.
  - specialize (Hle _ _ Hk'). apply ltb_not_leb in HR0. congruence.
Qed.

Lemma best_match_settled (frames : list (Frame fvec)) (pair : Z * Z) :
  settled frames pair = true →
  best_match chiral_symmetries frames pair = best_match cube_rotations frames pair.
Proof.
  unfold settled. destruct (best_match cube_rotations frames pair) as [R|] eqn:HR; [|done].
  destruct (py_get frames pair.1) as [fi|] eqn:Hi; [|done].
  destruct (py_get frames pair.2) as [fj|] eqn:Hj; [|done].
  intros Huniq. apply (best_match_unique_least _ _ fi fj); [done|done| |done].
  apply best_match_Ok in HR as (_ & _ & k & _ & _ & Hk & _).
  by eapply list_elem_of_lookup_2.
Qed.

Lemma compute_matchings_settled (tet_mesh : TetMesh V) (frames : list (Frame fvec)) :
  all_settled tet_mesh frames = true →
  compute_matchings chiral_symmetries tet_mesh frames
  = compute_matchings cube_rotations tet_mesh frames.
Proof.
  intros Hall. unfold all_settled in Hall. rewrite forallb_forall in Hall.
  apply for_each_ext. intros pair m Hin%list_elem_of_In. specialize (Hall _ Hin).
  unfold match_pair. case_match; [done|].
  apply orb_true_iff in Hall as [Hb|Hs]; [apply negb_true_iff, bool_decide_eq_false in Hb|].
  - exfalso. apply Hb. unfold interior. lia.
  - by rewrite best_match_settled.
Qed.

(** When every matching is settled, the classifier lists the same edges
    whatever the order of the list. *)
Lemma singular_graph_settled (tet_mesh : TetMesh V) (one_rings : gmap Z (list Z))
    (frames : list (Frame fvec)) :
  all_settled tet_mesh frames = true →
  singular_graph chiral_symmetries tet_mesh one_rings frames
  = singular_graph cube_rotations tet_mesh one_rings frames.
Proof.
  intros Hall. unfold singular_graph. by rewrite compute_matchings_settled.
Qed.

Lemma least_score_any_order (fi fj : Frame fvec) (X : mat) :
  least_score chiral_symmetries fi fj X = least_score cube_rotations fi fj X.
Proof.
  unfold least_score. apply Bool.eq_true_iff_eq. rewrite !forallb_forall.
  split; intros H Y HY; apply H; apply list_elem_of_In; apply list_elem_of_In in HY.
  - by rewrite chiral_symmetries_are_the_rotations.
  - by rewrite <- chiral_symmetries_are_the_rotations.
Qed.

(** The matcher settles on the first element of the list that has the
    least float64 score. *)
Lemma best_match_first_least (frames : list (Frame fvec)) (pair : Z * Z)
    (fi fj : Frame fvec) (R : mat) :
  py_get frames pair.1 = Ok fi → py_get frames pair.2 = Ok fj →
  (∀ X, X ∈ cube_rotations → is_nan (float64_score fi fj X) = false) →
  best_match chiral_symmetries frames pair = Ok R →
  ∃ k, chiral_symmetries !! k = Some R ∧
       least_score cube_rotations fi fj R = true ∧
       ∀ k' Y, (k' < k)%nat → chiral_symmetries !! k' = Some Y →
         least_score cube_rotations fi fj Y = false.
Proof.
  intros Hi Hj Hnum (fi' & fj' & k & Hi' & Hj' & Hk & Hmin)%best_match_Ok.
  rewrite Hi in Hi'. rewrite Hj in Hj'. injection Hi' as <-. injection Hj' as <-.
  assert (HR : R ∈ chiral_symmetries) by by eapply list_elem_of_lookup_2.
  destruct (first_minimum_scores _ _ _ _ _ Hk Hmin) as [[Hnan _]|[Hle Hlt]].
  { rewrite Hnum in Hnan; [done|]. by rewrite <- chiral_symmetries_are_the_rotations. }
  exists k. split; [done|]. split.
  - rewrite <- least_score_any_order. apply forallb_forall.
    intros Y [k' Hk']%list_elem_of_In%list_elem_of_lookup. by eapply Hle.
  - intros k' Y Hkk Hk'. rewrite <- least_score_any_order.
    apply Bool.not_true_is_false. intros Hleast.
    unfold least_score in Hleast. rewrite forallb_forall in Hleast.
    specialize (Hleast R). rewrite <- list_elem_of_In in Hleast.
    specialize (Hlt _ _ Hkk Hk'). apply ltb_not_leb in Hlt.
    rewrite Hleast in Hlt by done. done.
Qed.

(** Two pairs for which the same elements have the least score get the
    same matching. *)
Lemma best_match_same_least (frames : list (Frame fvec)) (pair pair' : Z * Z)
    (fi fj fi' fj' : Frame fvec) (R R' : mat) :
  py_get frames pair.1 = Ok fi → py_get frames pair.2 = Ok fj →
  py_get frames pair'.1 = Ok fi' → py_get frames pair'.2 = Ok fj' →
  (∀ X, X ∈ cube_rotations →
     is_nan (float64_score fi fj X) = false ∧ is_nan (float64_score fi' fj' X) = false ∧
     least_score cube_rotations fi fj X = least_score cube_rotations fi' fj' X) →
  best_match chiral_symmetries frames pair = Ok R →
  best_match chiral_symmetries frames pair' = Ok R' →
  R = R'.
Proof.
  intros Hi Hj Hi' Hj' Hsame HR HR'.
  apply (best_match_first_least _ _ fi fj) in HR as (k & Hk & Hleast & Hfirst);
    [|done|done|intros X HX; by apply Hsame].
  apply (best_match_first_least _ _ fi' fj') in HR' as (k' & Hk' & Hleast' & Hfirst');
    [|done|done|intros X HX; by apply Hsame].
  assert (Hin : ∀ j Y, chiral_symmetries !! j = Some Y → Y ∈ cube_rotations).
  { intros j Y HY. rewrite <- chiral_symmetries_are_the_rotations.
    by eapply list_elem_of_lookup_2. }
  destruct (Nat.lt_trichotomy k k') as [Hkk|[Hkk|Hkk]].
  - specialize (Hfirst' _ _ Hkk Hk).
    destruct (Hsame R (Hin _ _ Hk)) as (_ & _ & E). congruence.
  - subst k'. congruence.
  - specialize (Hfirst _ _ Hkk Hk').
    destruct (Hsame R' (Hin _ _ Hk')) as (_ & _ & E). congruence.
Qed.
End OrderFree.

(** The listing of edge (0, 1) on the first sample field, and the failure
    of C4 on the second, hold for the rotations in any order. *)
Lemma sample_listing_any_order (cs : list mat) :
  Permutation cs cube_rotations →
  singular_graph cs Octahedron.mesh Octahedron.rings Octahedron.field
  = Ok ([(0, 1)], Octahedron.pts).
Proof.
  intros Hperm. rewrite singular_graph_settled; [|done|]; by vm_compute.
Qed.

(** ** The claims on the sample mesh *)

Section Sample.
Import Octahedron Samples.

Lemma sample_indices_in_range : indices_in_range slit_mesh.
Proof.
  split_and!.
  - cbn. lia.
  - repeat (constructor; [unfold is_index; cbn; lia|]). constructor.
  - repeat (constructor;
            [repeat (constructor; [unfold is_index; cbn; lia|]); constructor|]).
    constructor.
Qed.

(** C1, where the code departs from it.  On the sample mesh with the
    field turned on tetrahedron 1, the first step of the walk around edge
    0 meets the pair (1, 0), of which only the reverse (0, 1) is stored.
    The accumulator is multiplied by the stored matrix, not by its inverse,
    which is a different matrix.  With the inverse the walk would end on
    the identity; as it is, the edge is listed as singular. *)
Theorem reversed_pair_multiplied_without_inverse :
  compute_matchings cube_rotations mesh field = Ok field_matchings ∧
  compute_onerings mesh round_surface = Ok rings ∧
  rings !! 0 = Some [0; 1; 2; 3] ∧
  field_matchings !! (1, 0) = None ∧
  field_matchings !! (0, 1) = Some (transpose quarter_turn) ∧
  inv (transpose quarter_turn) = Ok quarter_turn ∧
  quarter_turn ≠ transpose quarter_turn ∧
  turn field_matchings [0; 1; 2; 3] identity 0 = Ok (dot_mm identity (transpose quarter_turn)) ∧
  turn_as_specified field_matchings [0; 1; 2; 3] identity 0 = Ok (dot_mm identity quarter_turn) ∧
  holonomy field_matchings [0; 1; 2; 3] = Ok half_turn ∧
  holonomy_as_specified field_matchings [0; 1; 2; 3] = Ok identity ∧
  singular_graph cube_rotations mesh rings field = Ok ([(0, 1)], pts).
Proof.
  split_and!; try (vm_compute; reflexivity). vm_compute. discriminate.
Qed.

(** C7, where the code departs from it.  A curvature of 1e-12 is below
    the tolerance 1e-9 of [isclose], yet it does not count as close to
    zero: the four faces at the top vertex of the nearly flat surface each
    give a boundary frame. *)
Theorem tiny_curvature_is_not_skipped :
  (0 < tiny)%Q ∧ (tiny <= rel_tol)%Q ∧
  isclose tiny 0 = false ∧
  collect_boundary_frames centroid mesh nearly_flat_surface =
    Ok [mkFrame (Vec 1 0 0) (Vec 0 1 0) (Vec 0 0 1) (Vec 1 1 1);
        mkFrame (Vec 1 0 0) (Vec 0 1 0) (Vec 0 0 1) (Vec (-1) 1 1);
        mkFrame (Vec 1 0 0) (Vec 0 1 0) (Vec 0 0 1) (Vec (-1) (-1) 1);
        mkFrame (Vec 1 0 0) (Vec 0 1 0) (Vec 0 0 1) (Vec 1 (-1) 1)].
Proof.
  split_and!; [done|by vm_compute|reflexivity|vm_compute; reflexivity].
Qed.


(** Without the condition on the scores under which C4 holds of the code,
    the transpose need not even tie.  For the frames of [rounded_pair] the matcher
    settles on the identity for (0, 1) and on the quarter turn about the x
    axis for (1, 0); the two give combined residuals of the same exact
    norm for (1, 0), but the float64 score of the identity is above that
    of the quarter turn. *)
Lemma rounding_breaks_the_tie :
  ∃ fi fj qi qj,
    py_get rounded_pair 0 = Ok fi ∧ py_get rounded_pair 1 = Ok fj ∧
    exact_frame fi = Some qi ∧ exact_frame fj = Some qj ∧
    best_match cube_rotations rounded_pair (0, 1) = Ok identity ∧
    best_match cube_rotations rounded_pair (1, 0) = Ok quarter_about_x ∧
    euclidean_norm (combined_residual qj qi (transpose identity))
    = euclidean_norm (combined_residual qj qi quarter_about_x) ∧
    (float64_score fj fi quarter_about_x <? float64_score fj fi (transpose identity))%float
    = true ∧
    ordered_as_exact cube_rotations fj fi = false.
Proof.
  eexists _, _, _, _. split; [vm_compute; reflexivity|]. split; [vm_compute; reflexivity|].
  split; [vm_compute; reflexivity|]. split; [vm_compute; reflexivity|].
  split_and!; first [apply euclidean_norm_eq; by vm_compute | vm_compute; reflexivity].
Qed.

(** The claim C2 fails on the field with a near tie.  For the pair (0, 1)
    the matcher stores the quarter turn about the x axis, at position 1 of
    the list (counted from 0), although the rotation [cycle], at position
    8, gives a combined residual of smaller Euclidean norm: the squares of
    the two norms are 2^57 + 2 and 2^57, and the float64 scores of the two
    are the same number. *)
Lemma rounding_hides_the_least_norm :
  ∃ matchings fi fj qi qj,
    compute_matchings cube_rotations mesh near_tie_field = Ok matchings ∧
    py_get near_tie_field 0 = Ok fi ∧ py_get near_tie_field 1 = Ok fj ∧
    exact_frame fi = Some qi ∧ exact_frame fj = Some qj ∧
    matchings !! (0, 1) = Some quarter_about_x ∧
    cube_rotations !! 1%nat = Some quarter_about_x ∧
    cube_rotations !! 8%nat = Some cycle ∧
    (euclidean_norm (combined_residual qi qj cycle)
     < euclidean_norm (combined_residual qi qj quarter_about_x))%R ∧
    (float64_score fi fj quarter_about_x =? float64_score fi fj cycle)%float = true.
Proof.
  eexists _, _, _, _, _. split_and!; [vm_compute; reflexivity..| |vm_compute; reflexivity].
  apply euclidean_norm_lt. by vm_compute.
Qed.

(** The claim C3 fails on the first sample field.  The edge (0, 1) is
    listed although the accumulator composed around its one-ring, with the
    inverse where only the reversed pair is stored, is the identity; and
    what is listed is the pair of the indices of its endpoints, whose
    coordinates stay in the table of points. *)
Lemma listed_edge_has_identity_accumulator :
  compute_matchings cube_rotations mesh field = Ok field_matchings ∧
  singular_graph cube_rotations mesh rings field = Ok ([(0, 1)], pts) ∧
  (0, (0, 1)) ∈ enumerate (edges mesh) ∧
  rings !! 0 = Some [0; 1; 2; 3] ∧
  holonomy_as_specified field_matchings [0; 1; 2; 3] = Ok identity ∧
  singular_as_specified field_matchings rings (0, (0, 1)) = false ∧
  py_get pts 0 = Ok (Vec 0 0 0) ∧ py_get pts 1 = Ok (Vec 0 0 4).
Proof.
  split_and!; try (vm_compute; reflexivity). by left.
Qed.



Lemma matcher_assigns_first_least_float64_score_witness :
  cube_rotations ≠ [] ∧ (0, 1) ∈ adjacent_elements mesh ∧
  ∃ matchings fi fj k R,
    compute_matchings cube_rotations mesh near_tie_field = Ok matchings ∧
    py_get near_tie_field 0 = Ok fi ∧ py_get near_tie_field 1 = Ok fj ∧
    matchings !! (0, 1) = Some R ∧
    cube_rotations !! k = Some R ∧
    ((is_nan (float64_score fi fj R) = true ∧
      ∀ k' R', (k' < k)%nat → cube_rotations !! k' = Some R' →
        is_nan (float64_score fi fj R') = false) ∨
     ((∀ k' R', cube_rotations !! k' = Some R' →
         (float64_score fi fj R <=? float64_score fi fj R')%float = true) ∧
      (∀ k' R', (k' < k)%nat → cube_rotations !! k' = Some R' →
         (float64_score fi fj R <? float64_score fi fj R')%float = true))).
Proof.
  split; [discriminate|].
  split; [apply list_elem_of_In; vm_compute; tauto|].
  apply (matcher_assigns_first_least_float64_score cube_rotations mesh near_tie_field 0 1).
  - discriminate.
  - apply (Forall_forall (λ pair, interior pair →
                            is_index near_tie_field pair.1 ∧ is_index near_tie_field pair.2)).
    repeat (constructor; [unfold interior, is_index; cbn; lia|]). constructor.
  - apply list_elem_of_In. vm_compute. tauto.
  - lia.
  - lia.
Defined.

Lemma fan_ring_off_reversed_steps : reversed_steps_self_inverse fan_matchings [0; 1; 2].
Proof.
  intros i a b M Hi Ha Hb Hab Hba. cbn in Hi.
  assert (Hcase : i = 0 ∨ i = 1 ∨ i = 2) by lia.
  destruct Hcase as [-> | [-> | ->]]; vm_compute in Ha, Hb;
    injection Ha as <-; injection Hb as <-; vm_compute in Hab, Hba; try discriminate.
  injection Hba as <-. reflexivity.
Qed.

Lemma listed_edges_are_singular_off_reversed_steps_witness :
  compute_matchings cube_rotations fan fan_field = Ok fan_matchings ∧
  singular_graph cube_rotations fan fan_rings fan_field = Ok ([(0, 1)], points fan) ∧
  reversed_steps_self_inverse fan_matchings [0; 1; 2] ∧
  singular_as_specified fan_matchings fan_rings (0, (0, 1)) = true ∧
  points fan = points fan ∧
  ∃ listed : Z * (Z * Z) → bool,
    [(0, 1)] = (List.filter listed (enumerate (edges fan))).*2 ∧
    ∀ ei edge, (ei, edge) ∈ enumerate (edges fan) →
      (∀ one_ring, fan_rings !! ei = Some one_ring →
         reversed_steps_self_inverse fan_matchings one_ring) →
      listed (ei, edge) = singular_as_specified fan_matchings fan_rings (ei, edge).
Proof.
  split; [vm_compute; reflexivity|]. split; [vm_compute; reflexivity|].
  split; [exact fan_ring_off_reversed_steps|]. split; [vm_compute; reflexivity|].
  apply (listed_edges_are_singular_off_reversed_steps cube_rotations fan fan_rings fan_field
           fan_matchings [(0, 1)] (points fan)); vm_compute; reflexivity.
Defined.

Lemma matchings_come_from_the_list_witness :
  ∃ matchings,
    compute_matchings cube_rotations mesh field = Ok matchings ∧
    matchings !! (2, 1) = Some (transpose quarter_turn) ∧
    (∃ k, (k < length cube_rotations)%nat ∧
          cube_rotations !! k = Some (transpose quarter_turn)) ∧
    (2, 1) ∈ adjacent_elements mesh ∧ 2 ≠ -1 ∧ 1 ≠ -1.
Proof.
  eexists. split; [vm_compute; reflexivity|]. split; [vm_compute; reflexivity|].
  eapply (matchings_come_from_the_list cube_rotations mesh field).
  - vm_compute. reflexivity.
  - vm_compute. reflexivity.
Defined.




Lemma every_tet_gets_nearest_boundary_frame_witness :
  init_framefield centroid nearest mesh round_surface = Ok initial_field ∧
  ∃ boundary_frames,
    collect_boundary_frames centroid mesh round_surface = Ok boundary_frames ∧
    boundary_frames ≠ [] ∧
    length initial_field = length (elements mesh) ∧
    ∀ (ti : nat) tet, elements mesh !! ti = Some tet →
      ∃ c near,
        centroid mesh (Z.of_nat ti) = Ok c ∧
        py_get boundary_frames (nearest (location <$> boundary_frames) c) = Ok near ∧
        initial_field !! ti = Some (mkFrame (u near) (v near) (w near) c).
Proof.
  split; [vm_compute; reflexivity|].
  apply (every_tet_gets_nearest_boundary_frame centroid nearest mesh round_surface
           initial_field).
  vm_compute. reflexivity.
Defined.

Lemma one_ring_shape_witness :
  compute_onerings mesh round_surface = Ok rings ∧
  rings !! 3 = Some [1; 5; 6; 2] ∧
  ∃ edge seed rest,
    (3, edge) ∈ enumerate (edges mesh) ∧
    py_get (edge_adjacent_elements mesh) 3 = Ok seed ∧
    [1; 5; 6; 2] = seed :: rest ∧
    NoDup [1; 5; 6; 2] ∧
    ((-1) ∉ rest) ∧
    ∀ t, t ∈ rest → shares_edge mesh edge t.
Proof.
  split; [vm_compute; reflexivity|]. split; [vm_compute; reflexivity|].
  apply (one_ring_shape mesh round_surface rings 3 [1; 5; 6; 2]).
  - vm_compute. reflexivity.
  - vm_compute. reflexivity.
Defined.
End Sample.

Lemma sample_skew_any_order (cs : list mat) (R R' : mat) :
  Permutation cs cube_rotations →
  best_match cs Octahedron.skew_field (0, 1) = Ok R →
  best_match cs Octahedron.skew_field (1, 0) = Ok R' →
  transpose R ≠ R'.
Proof.
  intros Hperm HR HR'.
  assert (Hcs : ∀ M, M ∈ cs ↔ M ∈ cube_rotations) by (intros M; by rewrite Hperm).
  apply best_match_Ok in HR as (f0 & f1 & k & Hf0 & Hf1 & Hk & Hmin).
  apply best_match_Ok in HR' as (f1' & f0' & k' & Hf1' & Hf0' & Hk' & Hmin').
  vm_compute in Hf0, Hf1, Hf0', Hf1'.
  injection Hf0 as <-. injection Hf1 as <-. injection Hf0' as <-. injection Hf1' as <-.
  set (f0 := mkFrame (FVec 5 0 0) (FVec 0 4 0) (FVec 0 0 3) (FVec 1 1 1)) in *.
  set (f1 := mkFrame (FVec 2 0 0) (FVec 0 4 0) (FVec 0 0 6) (FVec (-1) 1 1)) in *.
  assert (Hc : cycle ∈ cs) by (apply Hcs, list_elem_of_In; vm_compute; tauto).
  apply list_elem_of_lookup in Hc as (kc & Hkc).
  assert (Two : ∀ fi fj X, (fi = f0 ∧ fj = f1) ∨ (fi = f1 ∧ fj = f0) → X ∈ cs →
            is_nan (float64_score fi fj X) = false ∧
            ((float64_score fi fj X <=? float64_score fi fj cycle)%float = true →
             X = cycle ∨ X = cycle_back)).
  { intros fi fj X Hf HX. apply Hcs in HX. revert X HX.
    apply (cube_rotations_all (λ X, _ = false ∧ (_ = true → X = cycle ∨ X = cycle_back))).
    destruct Hf as [[-> ->]|[-> ->]];
      repeat (constructor;
        [vm_compute; split;
         [reflexivity|intros Hx; first [discriminate Hx | by left | by right]]|]);
      constructor. }
  assert (Least : ∀ fi fj X kx, (fi = f0 ∧ fj = f1) ∨ (fi = f1 ∧ fj = f0) →
            cs !! kx = Some X → first_minimum (scores cs fi fj) kx →
            (X = cycle ∨ X = cycle_back) ∧
            ∀ ky Y, (ky < kx)%nat → cs !! ky = Some Y →
              (float64_score fi fj X <? float64_score fi fj Y)%float = true).
  { intros fi fj X kx Hf HX Hfirst.
    assert (HXin : X ∈ cs) by by eapply list_elem_of_lookup_2.
    destruct (Two fi fj X Hf HXin) as [Hnum Hcase].
    destruct (first_minimum_scores _ _ _ _ _ HX Hfirst) as [[Hnan _]|[Hle Hlt]];
      [congruence|].
    split; [|done]. apply Hcase. by eapply Hle. }
  destruct (Least f0 f1 R k) as [HRc Hlt]; [by left|done..|].
  destruct (Least f1 f0 R' k') as [HRc' Hlt']; [by right|done..|].
  assert (Heq : R = R').
  { destruct (Nat.lt_trichotomy k k') as [Hkk|[Hkk|Hkk]].
    - specialize (Hlt' _ _ Hkk Hk).
      destruct HRc as [-> | ->], HRc' as [-> | ->]; vm_compute in Hlt'; discriminate.
    - subst k'. congruence.
    - specialize (Hlt _ _ Hkk Hk').
      destruct HRc as [-> | ->], HRc' as [-> | ->]; vm_compute in Hlt; discriminate. }
  subst R'. destruct HRc as [-> | ->]; discriminate.
Qed.

(** The failure of C2 does not depend on the order of the list: whatever
    the order of the rotations, for one of the pairs (0, 1) and (2, 3) of
    the field with a near tie the matcher settles on an element that does
    not have the least exact norm. *)
Lemma sample_near_tie_any_order (cs : list mat) :
  Permutation cs cube_rotations →
  ∃ pair R R' fi fj qi qj,
    (pair = (0, 1) ∨ pair = (2, 3)) ∧
    best_match cs Samples.near_tie_field pair = Ok R ∧ R' ∈ cs ∧
    py_get Samples.near_tie_field pair.1 = Ok fi ∧
    py_get Samples.near_tie_field pair.2 = Ok fj ∧
    exact_frame fi = Some qi ∧ exact_frame fj = Some qj ∧
    (euclidean_norm (combined_residual qi qj R')
     < euclidean_norm (combined_residual qi qj R))%R.
Proof.
  intros Hperm.
  assert (Hcs : ∀ M, M ∈ cs ↔ M ∈ cube_rotations) by (intros M; by rewrite Hperm).
  assert (Hne : cs ≠ []).
  { intros E. apply Permutation_length in Hperm. by rewrite E in Hperm. }
  destruct (best_match_total cs Samples.near_tie_field (0, 1)) as (R & HR);
    [done|unfold is_index; cbn; lia..|].
  destruct (best_match_total cs Samples.near_tie_field (2, 3)) as (R' & HR');
    [done|unfold is_index; cbn; lia..|].
  destruct (py_get Samples.near_tie_field 0) as [f0|] eqn:Hf0; [|by vm_compute in Hf0].
  destruct (py_get Samples.near_tie_field 1) as [f1|] eqn:Hf1; [|by vm_compute in Hf1].
  destruct (py_get Samples.near_tie_field 2) as [f2|] eqn:Hf2; [|by vm_compute in Hf2].
  destruct (py_get Samples.near_tie_field 3) as [f3|] eqn:Hf3; [|by vm_compute in Hf3].
  destruct (exact_frame f0) as [q0|] eqn:Hq0;
    [|vm_compute in Hf0; injection Hf0 as <-; by vm_compute in Hq0].
  destruct (exact_frame f1) as [q1|] eqn:Hq1;
    [|vm_compute in Hf1; injection Hf1 as <-; by vm_compute in Hq1].
  destruct (exact_frame f2) as [q2|] eqn:Hq2;
    [|vm_compute in Hf2; injection Hf2 as <-; by vm_compute in Hq2].
  destruct (exact_frame f3) as [q3|] eqn:Hq3;
    [|vm_compute in Hf3; injection Hf3 as <-; by vm_compute in Hq3].
  assert (Htable : ∀ X, X ∈ cube_rotations →
            is_nan (float64_score f0 f1 X) = false ∧
            is_nan (float64_score f2 f3 X) = false ∧
            least_score cube_rotations f0 f1 X = least_score cube_rotations f2 f3 X ∧
            (least_score cube_rotations f0 f1 X = true →
             (norm2 (combined_residual q0 q1 cycle) < norm2 (combined_residual q0 q1 X))%Q ∨
             (norm2 (combined_residual q2 q3 Samples.quarter_about_x)
              < norm2 (combined_residual q2 q3 X))%Q)).
  { vm_compute in Hf0, Hf1, Hf2, Hf3.
    injection Hf0 as <-. injection Hf1 as <-. injection Hf2 as <-. injection Hf3 as <-.
    vm_compute in Hq0, Hq1, Hq2, Hq3.
    injection Hq0 as <-. injection Hq1 as <-. injection Hq2 as <-. injection Hq3 as <-.
    apply (cube_rotations_all (λ X, _ = false ∧ _ = false ∧ _ = _ ∧ (_ = true → _ ∨ _))).
    repeat (constructor;
      [vm_compute; split_and!; [reflexivity..|];
       intros Hx; first [discriminate Hx | by left | by right]|]).
    constructor. }
  assert (Heq : R = R').
  { eapply (best_match_same_least cs Hperm Samples.near_tie_field (0, 1) (2, 3) f0 f1 f2 f3);
      [done..| |done|done].
    intros X HX. destruct (Htable X HX) as (? & ? & ? & _). done. }
  subst R'.
  assert (HRin : R ∈ cube_rotations).
  { apply best_match_Ok in HR as (_ & _ & k & _ & _ & Hk & _).
    apply Hcs. by eapply list_elem_of_lookup_2. }
  destruct (best_match_first_least cs Hperm Samples.near_tie_field (0, 1) f0 f1 R)
    as (k & _ & Hleast & _); [done|done| |done|].
  { intros X HX. by destruct (Htable X HX). }
  destruct (Htable R HRin) as (_ & _ & _ & Hcase).
  destruct (Hcase Hleast) as [Hlt|Hlt].
  - exists (0, 1), R, cycle, f0, f1, q0, q1. split_and!; try done; [by left| |].
    + apply Hcs, list_elem_of_In. vm_compute. tauto.
    + by apply euclidean_norm_lt.
  - exists (2, 3), R, Samples.quarter_about_x, f2, f3, q2, q3. split_and!; try done; [by right| |].
    + apply Hcs, list_elem_of_In. vm_compute. tauto.
    + by apply euclidean_norm_lt.
Qed.

(** * Further properties *)

(** ** The one-ring builder *)

Section OneRingExtras.
Context {V : Type}.
Implicit Types (tet_mesh : TetMesh V) (surf_mesh : SurfMesh V).
Implicit Types (edge : Z * Z) (ring ns : list Z).

Lemma scan_None tet_mesh edge ring ns :
  scan tet_mesh edge ring ns = Ok None →
  ∀ t, t ∈ ns → t = -1 ∨ t ∈ ring ∨ ¬ shares_edge tet_mesh edge t.
Proof.
  induction ns as [|n ns IH]; cbn; [intros _ t Ht; by apply elem_of_nil in Ht|].
  intros H. bind_inv H as tet Htet.
  destruct ((n =? -1) || py_in n ring) eqn:Hskip.
  - intros t [->|Ht]%elem_of_cons; [|by apply IH].
    apply orb_true_iff in Hskip as [Hn%Z.eqb_eq|Hr%py_in_spec]; tauto.
  - destruct (py_in edge.1 tet && py_in edge.2 tet) eqn:Hshare; [done|].
    intros t [->|Ht]%elem_of_cons; [|by apply IH].
    right. right. intros (tet' & Htet' & H1 & H2). rewrite Htet in Htet'. injection Htet' as <-.
    apply andb_false_iff in Hshare as [Hs%py_in_false|Hs%py_in_false]; done.
Qed.

(** Each tetrahedron the walk appends is a neighbour of the one before it. *)
Lemma walk_chain fuel tet_mesh edge ring ring' :
  walk fuel tet_mesh edge ring = Ok ring' →
  ∀ (i : nat) a b, (length ring ≤ S i)%nat →
    ring' !! i = Some a → ring' !! S i = Some b →
    ∃ ns, py_get (neighbors tet_mesh) a = Ok ns ∧ b ∈ ns.
Proof.
  revert ring. induction fuel as [|fuel IH]; intros ring; cbn; [discriminate|].
  intros H. bind_inv H as last Hlast. bind_inv H as ns Hns. bind_inv H as found Hscan.
  destruct found as [t|].
  - pose proof (walk_result _ _ _ _ _ H) as (ext & -> & _).
    intros i a b Hi Ha Hb.
    destruct (decide (S i = length ring)) as [Heq|Hne].
    + exists ns. apply scan_Some in Hscan as (Ht & _).
      assert (Hl : ring !! i = Some last).
      { apply py_get_Ok in Hlast as [[? _]|(_ & _ & Hl)]; [lia|].
        by replace (Z.to_nat (-1 + Z.of_nat (length ring))) with i in Hl by lia. }
      rewrite <- app_assoc in Ha, Hb. cbn [app] in Ha, Hb.
      rewrite lookup_app_l in Ha by lia. rewrite Hl in Ha. injection Ha as <-.
      rewrite Heq, list_lookup_middle in Hb by done. injection Hb as <-. done.
    + apply (IH _ H i); [rewrite length_app; cbn; lia|done|done].
  - injection H as <-. intros i a b Hi _ Hb. apply lookup_lt_Some in Hb. lia.
Qed.

(** X1. The dictionary of one-rings has a key exactly for the positions of
    the edges that do not have both endpoints among the boundary vertices:
    an edge with both endpoints on the boundary gets no one-ring, every
    other edge gets one. *)
Theorem one_rings_keys_are_the_internal_edges tet_mesh surf_mesh one_rings ei :
  compute_onerings tet_mesh surf_mesh = Ok one_rings →
  is_Some (one_rings !! ei) ↔
  ∃ edge, (ei, edge) ∈ enumerate (edges tet_mesh) ∧ internal surf_mesh edge.
Proof.
  intros Hrun. revert ei.
  refine (for_each_prefix
            (λ pre (rings : gmap Z (list Z)), ∀ ei,
               is_Some (rings !! ei) ↔ ∃ edge, (ei, edge) ∈ pre ∧ internal surf_mesh edge)
            _ _ _ _ _ _ Hrun).
  - intros ei. rewrite lookup_empty. split; [by intros [? ?]|].
    intros (edge & Hin & _). by apply elem_of_nil in Hin.
  - intros pre [ej edge] post rings rings' _ IH Hstep ei.
    apply ring_edge_Ok in Hstep as [[Hb ->]|(Hint & seed & r & _ & _ & ->)].
    + rewrite IH. split.
      * intros (e & Hin & He). exists e. split; [|done]. apply elem_of_app. by left.
      * intros (e & [Hin|Hin%list_elem_of_singleton]%elem_of_app & He); [by exists e|].
        injection Hin as -> ->. done.
    + rewrite lookup_insert_is_Some, IH. split.
      * intros [<-|(_ & e & Hin & He)].
        -- exists edge. split; [|done]. apply elem_of_app. right. by left.
        -- exists e. split; [|done]. apply elem_of_app. by left.
      * intros (e & [Hin|Hin%list_elem_of_singleton]%elem_of_app & He).
        -- destruct (decide (ej = ei)) as [->|Hne]; [by left|]. right. split; [done|].
           by exists e.
        -- injection Hin as -> ->. by left.
Qed.

(** X2. When every edge has both endpoints among the boundary vertices,
    the builder returns the empty dictionary, and it does so without reading
    any other table of the mesh. *)
Theorem boundary_edges_give_no_one_ring tet_mesh surf_mesh :
  (∀ edge, edge ∈ edges tet_mesh →
     edge.1 ∈ vertex_map surf_mesh ∧ edge.2 ∈ vertex_map surf_mesh) →
  compute_onerings tet_mesh surf_mesh = Ok ∅.
Proof.
  intros Hall.
  destruct (for_each_total (λ rings : gmap Z (list Z), rings = ∅)
              (ring_edge tet_mesh surf_mesh) (enumerate (edges tet_mesh)) ∅)
    as (rings & Hrun & ->); [done| |done].
  intros [ei edge] rings Hin ->. exists ∅. split; [|done].
  apply elem_of_enumerate in Hin as [_ Hin%list_elem_of_lookup_2].
  destruct (Hall _ Hin) as [H1 H2]. unfold ring_edge.
  by rewrite !bool_decide_eq_true_2.
Qed.

(** X3. The loop of the walk always comes to an end, and the builder has
    no exception of its own: if it does not return, it is with the
    [IndexError] of a table read out of range. *)
Theorem one_ring_builder_raises_only_index_error tet_mesh surf_mesh e :
  compute_onerings tet_mesh surf_mesh = Raise e → e = IndexError.
Proof.
  intros ([ei edge] & rings & _ & H)%for_each_Raise. cbn in H.
  case_match; [done|].
  apply bind_Raise in H as [H|(seed & _ & H)]; [by apply py_get_fails in H|].
  apply bind_Raise in H as [H|(ring & _ & H)]; [by apply walk_fails in H|done].
Qed.

(** What the walk has done for the ring recorded at [ei]. *)
Lemma recorded_ring_walk tet_mesh surf_mesh one_rings ei ring :
  compute_onerings tet_mesh surf_mesh = Ok one_rings →
  one_rings !! ei = Some ring →
  ∃ edge seed, (ei, edge) ∈ enumerate (edges tet_mesh) ∧
               walk (walk_fuel tet_mesh) tet_mesh edge [seed] = Ok ring.
Proof.
  intros Hrun. revert ei ring.
  refine (for_each_invariant
            (λ rings : gmap Z (list Z), ∀ ei ring, rings !! ei = Some ring → _)
            _ _ _ _ _ _ Hrun).
  - intros ei ring. by rewrite lookup_empty.
  - intros [ej edge] rings rings' Hin IH Hstep ei ring Hring.
    apply ring_edge_Ok in Hstep as [[_ ->]|(_ & seed & r & Hseed & Hwalk & ->)]; [by apply IH|].
    apply lookup_insert_Some in Hring as [[<- <-]|[_ Hring]]; [|by apply IH].
    by exists edge, seed.
Qed.

(** X4. Every two consecutive entries of a recorded one-ring are face
    neighbours: the later one is listed among the neighbours of the earlier
    one. *)
Theorem one_ring_entries_are_chained tet_mesh surf_mesh one_rings ei ring (i : nat) a b :
  compute_onerings tet_mesh surf_mesh = Ok one_rings →
  one_rings !! ei = Some ring →
  ring !! i = Some a → ring !! S i = Some b →
  ∃ ns, py_get (neighbors tet_mesh) a = Ok ns ∧ b ∈ ns.
Proof.
  intros Hrun Hring Ha Hb.
  destruct (recorded_ring_walk _ _ _ _ _ Hrun Hring) as (edge & seed & _ & Hwalk).
  apply (walk_chain _ _ _ _ _ Hwalk i); [cbn; lia|done|done].
Qed.

(** X5. A recorded one-ring cannot be carried on: every neighbour of its
    last tetrahedron is the sentinel -1, or is in the ring already, or lacks
    an endpoint of the edge. *)
Theorem one_ring_is_maximal tet_mesh surf_mesh one_rings ei ring :
  compute_onerings tet_mesh surf_mesh = Ok one_rings →
  one_rings !! ei = Some ring →
  ∃ edge last ns,
    (ei, edge) ∈ enumerate (edges tet_mesh) ∧
    py_get ring (-1) = Ok last ∧
    py_get (neighbors tet_mesh) last = Ok ns ∧
    ∀ t, t ∈ ns → t = -1 ∨ t ∈ ring ∨ ¬ shares_edge tet_mesh edge t.
Proof.
  intros Hrun Hring.
  destruct (recorded_ring_walk _ _ _ _ _ Hrun Hring) as (edge & seed & Hin & Hwalk).
  apply walk_result in Hwalk as (_ & _ & _ & _ & last & ns & Hlast & Hns & Hscan).
  exists edge, last, ns. split_and!; [done|done|done|]. by apply scan_None.
Qed.

(** X6. With neighbour lists that hold only tetrahedra counted from 0 and
    the sentinel -1, every entry of a one-ring after the first is the
    position of a tetrahedron of the mesh, and the ring has at most one
    entry more than the mesh has tetrahedra. *)
Theorem one_ring_length_bound tet_mesh surf_mesh one_rings ei ring :
  neighbors_from_sentinel tet_mesh →
  compute_onerings tet_mesh surf_mesh = Ok one_rings →
  one_rings !! ei = Some ring →
  (∀ t, t ∈ tail ring → 0 ≤ t < Z.of_nat (length (elements tet_mesh))) ∧
  (length ring ≤ length (elements tet_mesh) + 1)%nat.
Proof.
  intros Hsent Hrun Hring.
  destruct (recorded_ring_walk _ _ _ _ _ Hrun Hring) as (edge & seed & _ & Hwalk).
  pose proof (walk_result _ _ _ _ _ Hwalk) as (ext & -> & Hnd & Hext & _).
  specialize (Hnd (NoDup_singleton seed)). cbn in Hnd. apply NoDup_cons in Hnd as [_ Hnd].
  assert (Hrange : ∀ t, t ∈ ext → 0 ≤ t < Z.of_nat (length (elements tet_mesh))).
  { intros t Ht. apply list_elem_of_lookup in Ht as (j & Hj).
    rewrite Forall_forall in Hext.
    destruct (Hext t) as (Hne & tet & Htet & _); [by eapply list_elem_of_lookup_2|].
    apply py_get_range in Htet.
    assert (Hprev : ∃ a, ([seed] ++ ext) !! j = Some a).
    { apply lookup_lt_is_Some. apply lookup_lt_Some in Hj. rewrite length_app. cbn. lia. }
    destruct Hprev as (a & Ha).
    destruct (walk_chain _ _ _ _ _ Hwalk j a t) as (ns & Hns & Hin); [cbn; lia|done|done|].
    unfold neighbors_from_sentinel in Hsent. rewrite Forall_forall in Hsent.
    specialize (Hsent ns (py_get_elem_of _ _ _ Hns)). rewrite Forall_forall in Hsent.
    specialize (Hsent t Hin). lia. }
  split; [done|]. cbn.
  assert (Hsub : ext ⊆+ seqZ 0 (Z.of_nat (length (elements tet_mesh)))).
  { apply NoDup_submseteq; [done|]. intros t Ht. apply elem_of_seqZ.
    specialize (Hrange t Ht). lia. }
  apply submseteq_length in Hsub. rewrite length_seqZ in Hsub. lia.
Qed.
End OneRingExtras.

(** ** The matcher *)

Lemma py_get_Forall2 {A B : Type} (P : A → B → Prop) (l : list A) (k : list B) (i : Z) :
  Forall2 P l k →
  match py_get l i, py_get k i with
  | Ok a, Ok b => P a b
  | Raise e, Raise e' => e = e'
  | _, _ => False
  end.
Proof.
  intros HP. pose proof (Forall2_length _ _ _ HP) as Hlen.
  unfold py_get. rewrite <- Hlen.
  destruct ((0 <=? _) && _); [|done].
  destruct (l !! _) as [a|] eqn:Ha, (k !! _) as [b|] eqn:Hb; [|exfalso..|done].
  - by eapply Forall2_lookup_lr.
  - apply lookup_lt_Some in Ha. apply lookup_ge_None in Hb. lia.
  - apply lookup_lt_Some in Hb. apply lookup_ge_None in Ha. lia.
Qed.

Section MatcherExtras.
Context {V : Type}.
Variable chiral_symmetries : list mat.
Implicit Types (tet_mesh : TetMesh V) (frames : list (Frame fvec)).
Implicit Types (pair : Z * Z) (matchings : gmap (Z * Z) mat).

Lemma best_match_returns frames pair :
  (∃ R, best_match chiral_symmetries frames pair = Ok R) ↔
  chiral_symmetries ≠ [] ∧ is_index frames pair.1 ∧ is_index frames pair.2.
Proof.
  split.
  - intros (R & (fi & fj & k & Hi & Hj & Hk & _)%best_match_Ok). split_and!.
    + intros E. by rewrite E in Hk.
    + by eapply py_get_range.
    + by eapply py_get_range.
  - intros (Hne & Hi & Hj). by apply best_match_total.
Qed.

Lemma best_match_raises frames pair e :
  best_match chiral_symmetries frames pair = Raise e →
  (chiral_symmetries = [] ∧ e = ValueError) ∨ (chiral_symmetries ≠ [] ∧ e = IndexError).
Proof.
  unfold best_match. destruct (decide (chiral_symmetries = [])) as [Hcs|Hcs].
  { rewrite Hcs. cbn. intros [= <-]. by left. }
  intros H. right. split; [done|].
  apply bind_Raise in H as [H|(args & Hargs & H)].
  { apply for_each_Raise in H as (R & acc & _ & H). unfold score in H.
    apply bind_Raise in H as [H|(fi & _ & H)]; [by eapply py_get_fails|].
    apply bind_Raise in H as [H|(fj & _ & H)]; [by eapply py_get_fails|done]. }
  apply bind_Raise in H as [H|(k & _ & H)]; [|by eapply py_get_fails].
  destruct (score_loop_frames _ _ _ _ _ Hcs Hargs) as (fi & fj & Hi & Hj).
  rewrite (score_loop _ _ fi fj) in Hargs by done. injection Hargs as <-.
  destruct chiral_symmetries; done.
Qed.

Lemma compute_matchings_returns tet_mesh frames :
  (∃ matchings, compute_matchings chiral_symmetries tet_mesh frames = Ok matchings) ↔
  ∀ pair, pair ∈ adjacent_elements tet_mesh → interior pair →
    chiral_symmetries ≠ [] ∧ is_index frames pair.1 ∧ is_index frames pair.2.
Proof.
  split.
  - intros (m & Hm) pair Hin Hint. apply best_match_returns.
    destruct (compute_matchings_Ok _ _ _ _ Hm) as [Hall _].
    destruct (Hall _ Hin Hint) as (R & _ & HR). by exists R.
  - intros Hall. apply compute_matchings_total. intros pair Hin Hint.
    apply best_match_returns. by apply Hall.
Qed.

Lemma compute_matchings_raises tet_mesh frames e :
  compute_matchings chiral_symmetries tet_mesh frames = Raise e →
  (chiral_symmetries = [] ∧ e = ValueError) ∨ (chiral_symmetries ≠ [] ∧ e = IndexError).
Proof.
  intros (pair & m & _ & H)%for_each_Raise. unfold match_pair in H.
  case_match; [done|].
  apply bind_Raise in H as [H|(R & _ & H)]; [by apply best_match_raises in H|done].
Qed.

(** X7. The matcher returns normally exactly when, for every pair of the
    face table without the sentinel, the list of symmetry elements is not
    empty and both entries of the pair index the frames.  Pairs with the
    sentinel are never looked up. *)
Theorem matcher_returns_exactly_when_pairs_index_frames tet_mesh frames :
  (∃ matchings, compute_matchings chiral_symmetries tet_mesh frames = Ok matchings) ↔
  ∀ pair, pair ∈ adjacent_elements tet_mesh → interior pair →
    chiral_symmetries ≠ [] ∧ is_index frames pair.1 ∧ is_index frames pair.2.
Proof. apply compute_matchings_returns. Qed.

(** X8. The matcher raises nothing but an [IndexError], for a pair that
    does not index the frames, when the list of symmetry elements is not
    empty; with an empty list it raises the [ValueError] of [argmin], and
    then the frames are not looked up at all. *)
Theorem matcher_raises_index_or_value_error tet_mesh frames e :
  compute_matchings chiral_symmetries tet_mesh frames = Raise e →
  (chiral_symmetries = [] ∧ e = ValueError) ∨ (chiral_symmetries ≠ [] ∧ e = IndexError).
Proof. apply compute_matchings_raises. Qed.

Lemma compute_matchings_rearranged (adj adj' : list (Z * Z)) frames m m' :
  (∀ pair, pair ∈ adj ↔ pair ∈ adj') →
  for_each (match_pair chiral_symmetries frames) adj ∅ = Ok m →
  for_each (match_pair chiral_symmetries frames) adj' ∅ = Ok m' →
  m = m'.
Proof.
  intros Hsame Hm Hm'.
  pose (tm := mkTetMesh (@nil V) [] [] adj [] []).
  pose (tm' := mkTetMesh (@nil V) [] [] adj' [] []).
  destruct (compute_matchings_Ok chiral_symmetries tm frames m Hm) as [Hall Hkeys].
  destruct (compute_matchings_Ok chiral_symmetries tm' frames m' Hm') as [Hall' Hkeys'].
  cbn in Hall, Hkeys, Hall', Hkeys'.
  apply map_eq. intros pair.
  destruct (m !! pair) as [R|] eqn:E.
  - destruct (Hkeys _ _ E) as (Hin & Hint & HR).
    destruct (Hall' pair) as (R' & -> & HR'); [by apply Hsame|done|]. congruence.
  - destruct (m' !! pair) as [R'|] eqn:E'; [|done].
    destruct (Hkeys' _ _ E') as (Hin & Hint & HR).
    destruct (Hall pair) as (R & E2 & _); [by apply Hsame|done|]. congruence.
Qed.

(** X9. The dictionary of matchings does not depend on the order of the
    face table, nor on how often a pair occurs in it: two meshes whose face
    tables hold the same pairs get the same matchings, and the matcher fails
    on the one exactly when it fails on the other, with the same
    exception. *)
Theorem matchings_do_not_depend_on_face_order (tet_mesh tet_mesh' : TetMesh V) frames :
  (∀ pair, pair ∈ adjacent_elements tet_mesh ↔ pair ∈ adjacent_elements tet_mesh') →
  compute_matchings chiral_symmetries tet_mesh frames
  = compute_matchings chiral_symmetries tet_mesh' frames.
Proof.
  intros Hsame.
  assert (Hret : (∃ m, compute_matchings chiral_symmetries tet_mesh frames = Ok m) ↔
                 (∃ m, compute_matchings chiral_symmetries tet_mesh' frames = Ok m)).
  { rewrite !compute_matchings_returns.
    split; intros H pair Hin; apply H; by apply Hsame. }
  destruct (compute_matchings chiral_symmetries tet_mesh frames) as [m|e] eqn:Hm,
           (compute_matchings chiral_symmetries tet_mesh' frames) as [m'|e'] eqn:Hm'.
  - f_equal. by eapply compute_matchings_rearranged.
  - destruct (proj1 Hret) as (? & ?); [by exists m|done].
  - destruct (proj2 Hret) as (? & ?); [by exists m'|done].
  - apply compute_matchings_raises in Hm, Hm'.
    destruct Hm as [[? ->]|[? ->]], Hm' as [[? ->]|[? ->]]; done.
Qed.
(** X10. The matchings depend on the frames through their vectors u, v
    and w only: two fields whose frames have the same three vectors,
    tetrahedron by tetrahedron, get the same dictionary, or the same
    exception, wherever the frames are located. *)
Theorem matchings_do_not_depend_on_locations tet_mesh frames frames' :
  Forall2 (λ f g, u f = u g ∧ v f = v g ∧ w f = w g) frames frames' →
  compute_matchings chiral_symmetries tet_mesh frames
  = compute_matchings chiral_symmetries tet_mesh frames'.
Proof.
  intros Hsame. apply for_each_ext. intros pair m _.
  unfold match_pair. case_match; [done|]. f_equal.
  unfold best_match. f_equal. apply for_each_ext. intros R args _. unfold score.
  pose proof (py_get_Forall2 _ _ _ pair.1 Hsame) as H1.
  pose proof (py_get_Forall2 _ _ _ pair.2 Hsame) as H2.
  destruct (py_get frames pair.1) as [fi|], (py_get frames' pair.1) as [gi|];
    try done; cbn; [|by subst].
  destruct (py_get frames pair.2) as [fj|], (py_get frames' pair.2) as [gj|];
    try done; cbn; [|by subst].
  destruct H1 as (Hu & Hv & Hw), H2 as (Hu' & Hv' & Hw').
  unfold residual. by rewrite Hu, Hv, Hw, Hu', Hv', Hw'.
Qed.
End MatcherExtras.

(** ** The singularity classifier *)

Section ClassifierExtras.
Context {V : Type}.
Variable chiral_symmetries : list mat.
Implicit Types (tet_mesh : TetMesh V) (frames : list (Frame fvec)).
Implicit Types (matchings : gmap (Z * Z) mat) (one_rings : gmap Z (list Z)).

Lemma ring_step_lookups (one_ring : list Z) (i : Z) :
  0 ≤ i < Z.of_nat (length one_ring) →
  ∃ a b, py_get one_ring ((i + 1) `mod` Z.of_nat (length one_ring)) = Ok a ∧
         py_get one_ring i = Ok b.
Proof.
  intros Hi.
  destruct (py_get_total one_ring ((i + 1) `mod` Z.of_nat (length one_ring))) as (a & Ha).
  { pose proof (Z.mod_pos_bound (i + 1) (Z.of_nat (length one_ring))). lia. }
  destruct (py_get_total one_ring i) as (b & Hb); [lia|]. by exists a, b.
Qed.

Lemma turn_Ok matchings one_ring type i type' :
  turn matchings one_ring type i = Ok type' →
  ∃ a b M,
    py_get one_ring ((i + 1) `mod` Z.of_nat (length one_ring)) = Ok a ∧
    py_get one_ring i = Ok b ∧
    (matchings !! (a, b) = Some M ∨
     (matchings !! (a, b) = None ∧ matchings !! (b, a) = Some M ∧ det M ≠ 0)) ∧
    type' = dot_mm type M.
Proof.
  unfold turn. intros H. bind_inv H as a Ha. bind_inv H as b Hb.
  exists a, b. destruct (matchings !! (a, b)) as [M|] eqn:Hab.
  - cbn in H. unfold dict_get in H. rewrite Hab in H. injection H as <-.
    exists M. split_and!; [done|done|by left|done].
  - bind_inv H as pm Hpm. destruct pm as [p m']. cbn [fst snd] in Hpm.
    unfold dict_get in Hpm. destruct (matchings !! (b, a)) as [M|] eqn:Hba; [|done].
    cbn in Hpm. unfold inv in Hpm. destruct (Z.eqb_spec (det M) 0) as [?|Hdet]; [done|].
    cbn in Hpm. injection Hpm as <- <-. cbn in H. unfold dict_get in H.
    rewrite Hba in H. injection H as <-.
    exists M. split_and!; [done|done|right; by split_and!|done].
Qed.

Lemma turn_Raise matchings one_ring type i e :
  0 ≤ i < Z.of_nat (length one_ring) →
  turn matchings one_ring type i = Raise e →
  ∃ a b,
    py_get one_ring ((i + 1) `mod` Z.of_nat (length one_ring)) = Ok a ∧
    py_get one_ring i = Ok b ∧
    matchings !! (a, b) = None ∧
    ((matchings !! (b, a) = None ∧ e = KeyError) ∨
     (∃ M, matchings !! (b, a) = Some M ∧ det M = 0 ∧ e = LinAlgError)).
Proof.
  intros Hi. destruct (ring_step_lookups one_ring i Hi) as (a & b & Ha & Hb).
  unfold turn. rewrite Ha, Hb. cbn. intros H. exists a, b. split; [done|]. split; [done|].
  destruct (matchings !! (a, b)) as [M|] eqn:Hab.
  { cbn in H. unfold dict_get in H. by rewrite Hab in H. }
  split; [done|]. unfold dict_get in H.
  destruct (matchings !! (b, a)) as [M|] eqn:Hba; cbn in H.
  - right. exists M. unfold inv in H. destruct (Z.eqb_spec (det M) 0) as [Hdet|Hdet].
    + cbn in H. by injection H as <-.
    + cbn in H. by rewrite Hba in H.
  - left. by injection H as <-.
Qed.

(** X11. The classifier fails in one of three ways only: the matcher
    fails; or the walk around a recorded one-ring meets a step whose pair is
    stored in neither order, which raises [KeyError]; or the pair is stored
    in the reverse order only, with a singular matrix, which raises
    [LinAlgError]. *)
Theorem classifier_failures tet_mesh one_rings frames e :
  singular_graph chiral_symmetries tet_mesh one_rings frames = Raise e →
  compute_matchings chiral_symmetries tet_mesh frames = Raise e ∨
  ∃ matchings ei edge one_ring i a b,
    compute_matchings chiral_symmetries tet_mesh frames = Ok matchings ∧
    (ei, edge) ∈ enumerate (edges tet_mesh) ∧ one_rings !! ei = Some one_ring ∧
    0 ≤ i < Z.of_nat (length one_ring) ∧
    py_get one_ring ((i + 1) `mod` Z.of_nat (length one_ring)) = Ok a ∧
    py_get one_ring i = Ok b ∧
    matchings !! (a, b) = None ∧
    ((matchings !! (b, a) = None ∧ e = KeyError) ∨
     (∃ M, matchings !! (b, a) = Some M ∧ det M = 0 ∧ e = LinAlgError)).
Proof.
  unfold singular_graph.
  intros [H|(m & Hm & H)]%bind_Raise; [by left|]. right.
  apply bind_Raise in H as [H|(lines & _ & H)]; [|done].
  apply for_each_Raise in H as ([ei edge] & lines & Hin & H). unfold classify_edge in H.
  destruct (one_rings !! ei) as [ring|] eqn:Hring; [|done].
  apply bind_Raise in H as [H|(type & _ & H)]; [|by destruct (negb _)].
  apply for_each_Raise in H as (i & type & Hi%elem_of_py_range & H).
  destruct (turn_Raise _ _ _ _ _ Hi H) as (a & b & Ha & Hb & Hab & Hcase).
  by exists m, ei, edge, ring, i, a, b.
Qed.

(** X12. When the classifier returns normally, every recorded one-ring of
    an edge of the mesh is a cycle of the face table: each entry and the
    next one, the last entry and the first included, are the two
    tetrahedra of a face, in one order or the other, and neither is the
    sentinel. *)
Theorem classified_rings_are_cycles_of_faces tet_mesh one_rings frames lines pts
    ei edge one_ring i :
  singular_graph chiral_symmetries tet_mesh one_rings frames = Ok (lines, pts) →
  (ei, edge) ∈ enumerate (edges tet_mesh) → one_rings !! ei = Some one_ring →
  0 ≤ i < Z.of_nat (length one_ring) →
  ∃ a b,
    py_get one_ring ((i + 1) `mod` Z.of_nat (length one_ring)) = Ok a ∧
    py_get one_ring i = Ok b ∧
    ((a, b) ∈ adjacent_elements tet_mesh ∨ (b, a) ∈ adjacent_elements tet_mesh) ∧
    a ≠ -1 ∧ b ≠ -1.
Proof.
  unfold singular_graph. intros H Hin Hring Hi.
  bind_inv H as m Hm. bind_inv H as lines' Hloop. clear H.
  apply classify_loop in Hloop as [Hall _].
  destruct (Hall _ _ _ Hin Hring) as (type & Htype).
  destruct (for_each_steps _ _ _ _ Htype i) as (t & t' & Hturn); [by apply elem_of_py_range|].
  apply turn_Ok in Hturn as (a & b & M & Ha & Hb & Hcase & _).
  destruct (compute_matchings_Ok _ _ _ _ Hm) as [_ Hkeys].
  exists a, b. split; [done|]. split; [done|].
  destruct Hcase as [Hab|(_ & Hba & _)].
  - destruct (Hkeys _ _ Hab) as (? & [? ?] & _). split_and!; [by left|done|done].
  - destruct (Hkeys _ _ Hba) as (? & [? ?] & _). split_and!; [by right|done|done].
Qed.

(** X13. An edge without a recorded one-ring is never listed: when no edge
    of the mesh has one, the classifier hands over the empty list as soon as
    the matcher returns. *)
Theorem no_one_ring_no_singular_edge tet_mesh one_rings frames matchings :
  (∀ ei edge, (ei, edge) ∈ enumerate (edges tet_mesh) → one_rings !! ei = None) →
  compute_matchings chiral_symmetries tet_mesh frames = Ok matchings →
  singular_graph chiral_symmetries tet_mesh one_rings frames = Ok ([], points tet_mesh).
Proof.
  intros Hnone Hm. unfold singular_graph. rewrite Hm. cbn [mbind result_bind].
  assert (Hloop : for_each (classify_edge matchings one_rings) (enumerate (edges tet_mesh)) []
                  = Ok []).
  { apply classify_loop. split.
    - intros ei edge ring Hin Hring. by rewrite (Hnone _ _ Hin) in Hring.
    - cbn. assert (Hf : List.filter (singular_edge matchings one_rings)
                          (enumerate (edges tet_mesh)) = []); [|by rewrite Hf].
      assert (Hl : ∀ l : list (Z * (Z * Z)),
                (∀ x, x ∈ l → singular_edge matchings one_rings x = false) →
                List.filter (singular_edge matchings one_rings) l = []).
      { induction l as [|x l IH]; [done|]. intros Hx. cbn.
        rewrite Hx by by left. apply IH. intros; apply Hx. by right. }
      apply Hl. intros [ei edge] Hin. unfold singular_edge. cbn.
      by rewrite (Hnone _ _ Hin). }
  by rewrite Hloop.
Qed.

Lemma identity_holonomy matchings one_ring type :
  (∀ pair M, matchings !! pair = Some M → M = identity) →
  holonomy matchings one_ring = Ok type → type = identity.
Proof.
  intros Hid. unfold holonomy.
  apply (for_each_invariant (λ t, t = identity)); [done|].
  intros i t t' _ -> (a & b & M & _ & _ & Hcase & ->)%turn_Ok.
  assert (M = identity) as ->; [|reflexivity].
  destruct Hcase as [Hab|(_ & Hba & _)]; by eapply Hid.
Qed.

(** X14. When every matching the matcher has stored is the identity, no
    edge is listed, whatever the one-rings are. *)
Theorem identity_matchings_give_no_singular_edge tet_mesh one_rings frames matchings
    lines pts :
  compute_matchings chiral_symmetries tet_mesh frames = Ok matchings →
  (∀ pair M, matchings !! pair = Some M → M = identity) →
  singular_graph chiral_symmetries tet_mesh one_rings frames = Ok (lines, pts) →
  lines = [].
Proof.
  intros Hm Hid H. unfold singular_graph in H. rewrite Hm in H.
  cbn [mbind result_bind] in H.
  bind_inv H as lines' Hloop. injection H as <- <-.
  apply classify_loop in Hloop as [_ ->]. cbn.
  assert (Hl : ∀ l : list (Z * (Z * Z)),
            List.filter (singular_edge matchings one_rings) l = []);
    [|by rewrite Hl].
  induction l as [|[ei edge] l IH]; [done|]. cbn. rewrite IH.
  unfold singular_edge. cbn.
  destruct (one_rings !! ei) as [ring|]; [|done].
  destruct (holonomy matchings ring) as [type|] eqn:Htype; [|done].
  apply identity_holonomy in Htype as ->; [|done].
  by rewrite bool_decide_eq_false_2 by (intros Hne; by apply Hne).
Qed.

(** X15. When every stored matching is its own inverse, the walk of the
    code ends on the same matrix as the walk that inverts the matching of a
    reversed pair. *)
Theorem walks_agree_on_self_inverse_matchings matchings one_ring :
  (∀ pair M, matchings !! pair = Some M → inv M = Ok M) →
  holonomy matchings one_ring = holonomy_as_specified matchings one_ring.
Proof.
  intros Hinv. apply for_each_ext. intros i type _.
  unfold turn, turn_as_specified.
  destruct (py_get one_ring ((i + 1) `mod` Z.of_nat (length one_ring))) as [a|]; cbn; [|done].
  destruct (py_get one_ring i) as [b|]; cbn; [|done].
  destruct (matchings !! (a, b)) as [M|] eqn:Hab; cbn.
  - unfold dict_get. by rewrite Hab.
  - unfold dict_get. destruct (matchings !! (b, a)) as [M|] eqn:Hba; [|done].
    cbn. rewrite (Hinv _ _ Hba). cbn. by rewrite Hba.
Qed.

(** X16. When the list of symmetry elements holds the 24 rotations of the
    cube, in any order, the accumulator at the end of a walk is again one of
    the 24 rotations. *)
Theorem holonomy_is_a_rotation tet_mesh frames matchings one_ring type :
  Permutation chiral_symmetries cube_rotations →
  compute_matchings chiral_symmetries tet_mesh frames = Ok matchings →
  holonomy matchings one_ring = Ok type →
  type ∈ cube_rotations.
Proof.
  intros Hperm Hm. unfold holonomy.
  assert (Hclosed : ∀ A, A ∈ cube_rotations → ∀ B, B ∈ cube_rotations →
            dot_mm A B ∈ cube_rotations).
  { apply (cube_rotations_all (λ A, ∀ B, B ∈ cube_rotations → dot_mm A B ∈ cube_rotations)).
    repeat (constructor;
      [apply (cube_rotations_all (λ B, dot_mm _ B ∈ cube_rotations));
       repeat (constructor; [apply list_elem_of_In; vm_compute; tauto|]); constructor|]).
    constructor. }
  apply (for_each_invariant (λ t, t ∈ cube_rotations)).
  { apply list_elem_of_In. vm_compute. tauto. }
  intros i t t' _ Ht (a & b & M & _ & _ & Hcase & ->)%turn_Ok.
  apply Hclosed; [done|].
  destruct (compute_matchings_Ok _ _ _ _ Hm) as [_ Hkeys].
  assert (HM : ∃ pair, matchings !! pair = Some M).
  { destruct Hcase as [Hab|(_ & Hba & _)]; by eexists. }
  destruct HM as (pair & HM). destruct (Hkeys _ _ HM) as (_ & _ & Hbest).
  apply best_match_Ok in Hbest as (_ & _ & k & _ & _ & Hk & _).
  rewrite <- Hperm. by eapply list_elem_of_lookup_2.
Qed.
End ClassifierExtras.

(** ** The field initializer *)

Section InitializerExtras.
Context {V : Type}.
Variable tet_centroid : TetMesh V → Z → result V.
Variable kdtree_query : list V → V → Z.
Implicit Types (tet_mesh : TetMesh V) (surf_mesh : SurfMesh V).
Implicit Types (boundary_frames frames : list (Frame V)).

(** X17. The boundary frames are, in the order of the surface faces, one
    frame for each face whose first vertex does not have both curvatures
    exactly zero: its u and v are the principal directions and its w the
    normal at that vertex, and its location is the centroid of the first
    tetrahedron of the face of the solid that the face map gives. *)
Theorem boundary_frames_are_the_curved_faces tet_mesh surf_mesh boundary_frames :
  collect_boundary_frames tet_centroid tet_mesh surf_mesh = Ok boundary_frames →
  Forall2 (frame_of_face tet_centroid tet_mesh surf_mesh)
    (List.filter (λ f, negb (flat_face surf_mesh f.2)) (enumerate (faces surf_mesh)))
    boundary_frames.
Proof. intros H. by apply collect_boundary_frames_Ok in H as [_ H]. Qed.

(** X18. The tetrahedron of a face is looked up before its curvatures are
    tested: when the loop over the faces is left normally, every face, flat
    or not, is in the face map, and the face of the solid it is mapped to
    has a first tetrahedron in the mesh. *)
Theorem every_face_is_resolved tet_mesh surf_mesh boundary_frames fi surf_face :
  collect_boundary_frames tet_centroid tet_mesh surf_mesh = Ok boundary_frames →
  (fi, surf_face) ∈ enumerate (faces surf_mesh) →
  face_resolved tet_mesh surf_mesh fi.
Proof. intros H. apply collect_boundary_frames_Ok in H as [H _]. apply H. Qed.

(** X19. On a surface all of whose faces have both curvatures exactly
    zero at their first vertex (a surface without faces included), the
    initializer never returns a field. *)
Theorem flat_surface_gives_no_field tet_mesh surf_mesh frames :
  (∀ surf_face, surf_face ∈ faces surf_mesh → flat_face surf_mesh surf_face = true) →
  init_framefield tet_centroid kdtree_query tet_mesh surf_mesh ≠ Ok frames.
Proof.
  intros Hflat H. unfold init_framefield in H.
  bind_inv H as bf Hbf. bind_inv H as tree Htree.
  apply collect_boundary_frames_Ok in Hbf as [_ Hbf].
  assert (Hf : List.filter (λ f : Z * list Z, negb (flat_face surf_mesh f.2))
                 (enumerate (faces surf_mesh)) = []).
  { assert (Hl : ∀ l : list (Z * list Z),
              (∀ x, x ∈ l → flat_face surf_mesh x.2 = true) →
              List.filter (λ f : Z * list Z, negb (flat_face surf_mesh f.2)) l = []).
    { induction l as [|x l IH]; [done|]. intros Hx. cbn.
      rewrite Hx by by left. apply IH. intros; apply Hx. by right. }
    apply Hl. intros [fi face] [_ Hin%list_elem_of_lookup_2]%elem_of_enumerate.
    by apply Hflat. }
  rewrite Hf in Hbf. apply Forall2_nil_inv_l in Hbf as ->. done.
Qed.

(** X20. Every frame of the field the initializer returns carries the two
    principal directions and the normal of one and the same surface vertex,
    the first vertex of a face at which the curvatures are not both exactly
    zero. *)
Theorem field_frames_come_from_curved_vertices tet_mesh surf_mesh frames frame :
  init_framefield tet_centroid kdtree_query tet_mesh surf_mesh = Ok frames →
  frame ∈ frames →
  ∃ surf_face a,
    surf_face ∈ faces surf_mesh ∧ flat_face surf_mesh surf_face = false ∧
    py_get surf_face 0 = Ok a ∧
    py_get (pdir1 surf_mesh) a = Ok (u frame) ∧
    py_get (pdir2 surf_mesh) a = Ok (v frame) ∧
    py_get (vertex_normals surf_mesh) a = Ok (w frame).
Proof.
  unfold init_framefield. intros H Hin.
  bind_inv H as bf Hbf. bind_inv H as tree Htree.
  apply collect_boundary_frames_Ok in Hbf as [_ Hbf].
  assert (Hsrc : ∃ near, near ∈ bf ∧ u frame = u near ∧ v frame = v near ∧ w frame = w near).
  { revert frame Hin.
    refine (for_each_invariant
              (λ fs : list (Frame V), ∀ frame, frame ∈ fs →
                 ∃ near, near ∈ bf ∧ u frame = u near ∧ v frame = v near ∧ w frame = w near)
              _ _ _ _ _ _ H).
    - intros frame Hin. by apply elem_of_nil in Hin.
    - intros [ti tet] fs fs' _ IH Hstep frame.
      apply propagate_Ok in Hstep as (c & near & _ & Hnear & ->).
      intros [Hin|Hin%list_elem_of_singleton]%elem_of_app; [by apply IH|].
      subst frame. exists near. split; [by eapply py_get_elem_of|done]. }
  destruct Hsrc as (near & Hnear & -> & -> & ->).
  apply list_elem_of_lookup in Hnear as (j & Hj).
  destruct (Forall2_lookup_r _ _ _ _ _ Hbf Hj) as ([fi face] & Hface & Hrel).
  apply list_elem_of_lookup_2, list_elem_of_In, List.filter_In in Hface as [Hface Hcurved].
  apply list_elem_of_In, elem_of_enumerate in Hface as [_ Hface%list_elem_of_lookup_2].
  destruct Hrel as (a & vfi & pair & Ha & _ & _ & H1 & H2 & H3 & _). cbn in *.
  exists face, a. split_and!; try done. by apply negb_true_iff.
Qed.
End InitializerExtras.

(** ** The further properties on the sample mesh *)

Section ExtraSamples.
Import Octahedron Samples.

Lemma one_rings_keys_are_the_internal_edges_witness :
  compute_onerings mesh round_surface = Ok rings ∧
  (is_Some (rings !! 3) ↔
   ∃ edge, (3, edge) ∈ enumerate (edges mesh) ∧ internal round_surface edge).
Proof.
  split; [vm_compute; reflexivity|].
  apply (one_rings_keys_are_the_internal_edges mesh round_surface rings 3).
  vm_compute. reflexivity.
Defined.

Lemma boundary_edges_give_no_one_ring_witness :
  (∀ edge, edge ∈ edges mesh →
     edge.1 ∈ vertex_map all_boundary_surface ∧ edge.2 ∈ vertex_map all_boundary_surface) ∧
  compute_onerings mesh all_boundary_surface = Ok ∅.
Proof.
  assert (H : ∀ edge, edge ∈ edges mesh →
            edge.1 ∈ vertex_map all_boundary_surface ∧
            edge.2 ∈ vertex_map all_boundary_surface).
  { apply (Forall_forall (λ edge, edge.1 ∈ vertex_map all_boundary_surface ∧
                                  edge.2 ∈ vertex_map all_boundary_surface)).
    repeat (constructor; [split; by vm_compute|]).
    constructor. }
  split; [exact H|].
  apply (boundary_edges_give_no_one_ring mesh all_boundary_surface). exact H.
Defined.

Lemma one_ring_builder_raises_only_index_error_witness :
  compute_onerings mesh_without_edge_tets round_surface = Raise IndexError ∧
  IndexError = IndexError.
Proof.
  split; [vm_compute; reflexivity|].
  apply (one_ring_builder_raises_only_index_error mesh_without_edge_tets round_surface).
  vm_compute. reflexivity.
Defined.

Lemma one_ring_entries_are_chained_witness :
  rings !! 0 = Some [0; 1; 2; 3] ∧
  ∃ ns, py_get (neighbors mesh) 1 = Ok ns ∧ 2 ∈ ns.
Proof.
  split; [vm_compute; reflexivity|].
  apply (one_ring_entries_are_chained mesh round_surface rings 0 [0; 1; 2; 3] 1 1 2);
    vm_compute; reflexivity.
Defined.

Lemma one_ring_is_maximal_witness :
  rings !! 0 = Some [0; 1; 2; 3] ∧
  ∃ edge last ns,
    (0, edge) ∈ enumerate (edges mesh) ∧
    py_get [0; 1; 2; 3] (-1) = Ok last ∧
    py_get (neighbors mesh) last = Ok ns ∧
    ∀ t, t ∈ ns → t = -1 ∨ t ∈ [0; 1; 2; 3] ∨ ¬ shares_edge mesh edge t.
Proof.
  split; [vm_compute; reflexivity|].
  apply (one_ring_is_maximal mesh round_surface rings 0 [0; 1; 2; 3]);
    vm_compute; reflexivity.
Defined.

Lemma one_ring_length_bound_witness :
  neighbors_from_sentinel mesh ∧
  (∀ t, t ∈ tail [0; 1; 2; 3] → 0 ≤ t < Z.of_nat (length (elements mesh))) ∧
  (length [0; 1; 2; 3] ≤ length (elements mesh) + 1)%nat.
Proof.
  assert (H : neighbors_from_sentinel mesh).
  { unfold neighbors_from_sentinel.
    repeat (constructor; [repeat (constructor; [lia|]); constructor|]). constructor. }
  split; [exact H|].
  apply (one_ring_length_bound mesh round_surface rings 0 [0; 1; 2; 3]);
    [exact H|vm_compute; reflexivity..].
Defined.

Lemma matcher_returns_exactly_when_pairs_index_frames_witness :
  compute_matchings cube_rotations mesh field = Ok field_matchings ∧
  ∀ pair, pair ∈ adjacent_elements mesh → interior pair →
    cube_rotations ≠ [] ∧ is_index field pair.1 ∧ is_index field pair.2.
Proof.
  split; [vm_compute; reflexivity|].
  apply (matcher_returns_exactly_when_pairs_index_frames cube_rotations mesh field).
  exists field_matchings. vm_compute. reflexivity.
Defined.

Lemma matcher_raises_index_or_value_error_witness :
  compute_matchings [] mesh field = Raise ValueError ∧
  (([] : list mat) = [] ∧ ValueError = ValueError ∨
   ([] : list mat) ≠ [] ∧ ValueError = IndexError).
Proof.
  split; [vm_compute; reflexivity|].
  apply (matcher_raises_index_or_value_error [] mesh field). vm_compute. reflexivity.
Defined.

Lemma matchings_do_not_depend_on_face_order_witness :
  compute_matchings cube_rotations mesh field
  = compute_matchings cube_rotations mesh_faces_reversed field.
Proof.
  apply (matchings_do_not_depend_on_face_order cube_rotations mesh mesh_faces_reversed field).
  intros pair. change (pair ∈ face_tets ↔ pair ∈ reverse face_tets).
  by rewrite elem_of_reverse.
Defined.

Lemma matchings_do_not_depend_on_locations_witness :
  compute_matchings cube_rotations mesh field
  = compute_matchings cube_rotations mesh relocated_field.
Proof.
  apply (matchings_do_not_depend_on_locations cube_rotations mesh field relocated_field).
  repeat (constructor; [split_and!; reflexivity|]). constructor.
Defined.

Lemma classifier_failures_witness :
  singular_graph cube_rotations mesh single_ring field = Raise KeyError ∧
  (compute_matchings cube_rotations mesh field = Raise KeyError ∨
   ∃ matchings ei edge one_ring i a b,
     compute_matchings cube_rotations mesh field = Ok matchings ∧
     (ei, edge) ∈ enumerate (edges mesh) ∧ single_ring !! ei = Some one_ring ∧
     0 ≤ i < Z.of_nat (length one_ring) ∧
     py_get one_ring ((i + 1) `mod` Z.of_nat (length one_ring)) = Ok a ∧
     py_get one_ring i = Ok b ∧
     matchings !! (a, b) = None ∧
     ((matchings !! (b, a) = None ∧ KeyError = KeyError) ∨
      (∃ M, matchings !! (b, a) = Some M ∧ det M = 0 ∧ KeyError = LinAlgError))).
Proof.
  split; [vm_compute; reflexivity|].
  apply (classifier_failures cube_rotations mesh single_ring field). vm_compute. reflexivity.
Defined.

Lemma classified_rings_are_cycles_of_faces_witness :
  singular_graph cube_rotations mesh rings field = Ok ([(0, 1)], pts) ∧
  ∃ a b,
    py_get [0; 1; 2; 3] ((3 + 1) `mod` Z.of_nat (length [0; 1; 2; 3])) = Ok a ∧
    py_get [0; 1; 2; 3] 3 = Ok b ∧
    ((a, b) ∈ adjacent_elements mesh ∨ (b, a) ∈ adjacent_elements mesh) ∧
    a ≠ -1 ∧ b ≠ -1.
Proof.
  split; [vm_compute; reflexivity|].
  apply (classified_rings_are_cycles_of_faces cube_rotations mesh rings field [(0, 1)] pts
           0 (0, 1) [0; 1; 2; 3] 3).
  - vm_compute. reflexivity.
  - by left.
  - vm_compute. reflexivity.
  - cbn. lia.
Defined.

Lemma no_one_ring_no_singular_edge_witness :
  compute_matchings cube_rotations mesh field = Ok field_matchings ∧
  singular_graph cube_rotations mesh ∅ field = Ok ([], points mesh).
Proof.
  split; [vm_compute; reflexivity|].
  apply (no_one_ring_no_singular_edge cube_rotations mesh ∅ field field_matchings).
  - intros ei edge _. reflexivity.
  - vm_compute. reflexivity.
Defined.

Lemma identity_matchings_give_no_singular_edge_witness :
  compute_matchings cube_rotations mesh constant_field = Ok constant_matchings ∧
  (∀ pair M, constant_matchings !! pair = Some M → M = identity) ∧
  singular_graph cube_rotations mesh rings constant_field = Ok ([], pts) ∧
  ([] : list (Z * Z)) = [].
Proof.
  assert (Hid : ∀ pair M, constant_matchings !! pair = Some M → M = identity).
  { intros pair M H. apply elem_of_list_to_map_2, list_elem_of_In in H.
    cbn in H. repeat (destruct H as [H|H]; [by injection H as <- <-|]). destruct H. }
  split; [vm_compute; reflexivity|]. split; [exact Hid|].
  split; [vm_compute; reflexivity|].
  apply (identity_matchings_give_no_singular_edge cube_rotations mesh rings constant_field
           constant_matchings [] pts); [vm_compute; reflexivity|exact Hid|vm_compute; reflexivity].
Defined.

Lemma walks_agree_on_self_inverse_matchings_witness :
  holonomy half_turn_matchings [0; 1; 2; 3]
  = holonomy_as_specified half_turn_matchings [0; 1; 2; 3].
Proof.
  apply (walks_agree_on_self_inverse_matchings half_turn_matchings [0; 1; 2; 3]).
  intros pair M H. apply elem_of_map_to_list, list_elem_of_In in H.
  vm_compute in H.
  repeat (destruct H as [H|H]; [injection H as <- <-; reflexivity|]). destruct H.
Defined.

Lemma holonomy_is_a_rotation_witness :
  holonomy field_matchings [0; 1; 2; 3] = Ok half_turn ∧ half_turn ∈ cube_rotations.
Proof.
  split; [vm_compute; reflexivity|].
  apply (holonomy_is_a_rotation cube_rotations mesh field field_matchings [0; 1; 2; 3]).
  - reflexivity.
  - vm_compute. reflexivity.
  - vm_compute. reflexivity.
Defined.

Lemma boundary_frames_are_the_curved_faces_witness :
  collect_boundary_frames centroid mesh nearly_flat_surface = Ok top_frames ∧
  Forall2 (frame_of_face centroid mesh nearly_flat_surface)
    (List.filter (λ f, negb (flat_face nearly_flat_surface f.2))
                 (enumerate (faces nearly_flat_surface)))
    top_frames.
Proof.
  split; [vm_compute; reflexivity|].
  apply (boundary_frames_are_the_curved_faces centroid mesh nearly_flat_surface top_frames).
  vm_compute. reflexivity.
Defined.

Lemma every_face_is_resolved_witness :
  flat_face nearly_flat_surface [5; 2; 1] = true ∧
  face_resolved mesh nearly_flat_surface 4.
Proof.
  split; [vm_compute; reflexivity|].
  apply (every_face_is_resolved centroid mesh nearly_flat_surface top_frames 4 [5; 2; 1]).
  - vm_compute. reflexivity.
  - apply elem_of_enumerate. split; [lia|reflexivity].
Defined.

Lemma flat_surface_gives_no_field_witness :
  init_framefield centroid nearest mesh flat_surface ≠ Ok [].
Proof.
  apply (flat_surface_gives_no_field centroid nearest mesh flat_surface []).
  apply (Forall_forall (λ surf_face, flat_face flat_surface surf_face = true)).
  repeat (constructor; [vm_compute; reflexivity|]). constructor.
Defined.

Lemma field_frames_come_from_curved_vertices_witness :
  init_framefield centroid nearest mesh round_surface = Ok initial_field ∧
  ∃ surf_face a,
    surf_face ∈ faces round_surface ∧ flat_face round_surface surf_face = false ∧
    py_get surf_face 0 = Ok a ∧
    py_get (pdir1 round_surface) a = Ok (Vec 1 0 0) ∧
    py_get (pdir2 round_surface) a = Ok (Vec 0 (-1) 0) ∧
    py_get (vertex_normals round_surface) a = Ok (Vec 0 0 (-1)).
Proof.
  split; [vm_compute; reflexivity|].
  apply (field_frames_come_from_curved_vertices centroid nearest mesh round_surface
           initial_field
           (mkFrame (Vec 1 0 0) (Vec 0 (-1) 0) (Vec 0 0 (-1)) (Vec 1 1 (-1)))).
  - vm_compute. reflexivity.
  - apply list_elem_of_In. vm_compute. tauto.
Defined.
End ExtraSamples.
